(** * engine.io transports: the transport factory and the WebSocket transport

    A shallow embedding of the module that exports the transports (the
    factory with its polymorphic [polling] constructor) and of
    [lib/transports/websocket.ts]
    (the [WebSocket] transport: constructor, [send], [_canSendPreEncodedFrame]
    and [doClose]), followed by the properties of the transport layer.

    The transport is an object driven by callbacks.  It is embedded as a
    record of its fields together with the part of its environment that the
    code talks to: the completion callbacks the socket adapter still holds and
    the sequence of effects performed so far.  Methods are functions from
    worlds to worlds; what the upper layer and the socket adapter may do to a
    transport is a step function over actions. *)

From stdpp Require Import base strings list gmap.
From Stdlib Require Import ZArith Lia.

Local Open Scope string_scope.
Local Open Scope list_scope.
Local Open Scope nat_scope.

(** ** JavaScript values *)

(** An [Error] object, as far as the transport reads it ([err.stack]). *)
Record Error := { message : string; stack : string }.

#[local] Set Warnings "-register-all".

(** The values that travel through the code.  Text is held as its UTF-8
    bytes, a [Buffer] as its bytes, a function by its arity. *)
Inductive JsValue : Type :=
  | JsUndefined
  | JsNull
  | JsBoolean (b : bool)
  | JsNumber (n : Z)
  | JsString (s : string)
  | JsBuffer (bytes : list Byte.byte)
  | JsArray (items : list JsValue)
  | JsFunction (arity : nat)
  | JsError (e : Error).

(** The [typeof] operator. *)
Definition typeof (v : JsValue) : string :=
  match v with
  | JsUndefined => "undefined"
  | JsNull => "object"
  | JsBoolean _ => "boolean"
  | JsNumber _ => "number"
  | JsString _ => "string"
  | JsBuffer _ => "object"
  | JsArray _ => "object"
  | JsFunction _ => "function"
  | JsError _ => "object"
  end.

(** [v !== undefined] *)
Definition not_undefined (v : JsValue) : bool :=
  match v with
  | JsUndefined => false
  | _ => true
  end.

(** [Buffer.byteLength(s)] of a string: the length of its UTF-8 encoding. *)
Definition Buffer_byteLength (s : string) : Z := Z.of_nat (String.length s).

(** [v.length] of a value that is not a string, which is all the code reads
    it of; [None] stands for [undefined]. *)
Definition js_length (v : JsValue) : option Z :=
  match v with
  | JsBuffer bytes => Some (Z.of_nat (length bytes))
  | JsArray items => Some (Z.of_nat (length items))
  | JsFunction arity => Some (Z.of_nat arity)
  | _ => None
  end.

(** [data.toString()] of an incoming frame, a [Buffer] or a string. *)
Definition js_toString (v : JsValue) : JsValue :=
  match v with
  | JsBuffer bytes => JsString (String.string_of_list_byte bytes)
  | _ => v
  end.

(** ** The socket adapter ([WsWebSocket]) and the packets *)

(** [socket._sender]: only its [sendFrame] property is read. *)
Record Sender := { sendFrame : JsValue }.

(** The options carried by a packet. [None] in [compress] is [undefined]. *)
Record PacketOptions := {
  compress : option bool;
  wsPreEncoded : JsValue;
  wsPreEncodedFrame : JsValue;
}.

Record Packet := {
  type : string;
  data : JsValue;
  options : option PacketOptions;
}.

(** The object [opts] handed to [socket.send]: [{ compress?: boolean }]. *)
Record SendOptions := { opts_compress : option bool }.

(** One [onSent] closure. [isLast] is the variable it captures; the batch and
    the index of the packet it was created for identify the closure. *)
Record Callback := { cb_batch : nat; cb_index : nat; isLast : bool }.

(** The optional callback of [doClose], by identity. *)
Inductive Fn := FnId (n : nat).

(** ** Effects *)

(** What the transport does to its collaborators and to its own flag. *)
Inductive Effect :=
  | WritableSet (b : bool)
      (** [this.writable = b] *)
  | SocketSend (payload : JsValue) (opts : SendOptions) (onSent : Callback)
      (** [this.socket.send(data, opts, onSent)] *)
  | SenderSendFrame (frame : JsValue) (onSent : Callback)
      (** [this.socket._sender.sendFrame(frame, onSent)] *)
  | ParserEncodePacket (packet : Packet) (supportsBinary : bool)
      (** [this.parser.encodePacket(packet, this.supportsBinary, send)] *)
  | OnError (msg desc : JsValue)
      (** [this.onError(msg, desc)], the error path of the base class *)
  | OnData (msg : JsValue)
      (** [super.onData(message)] *)
  | OnClose
      (** [this.onClose()] *)
  | Emit (name : string)
      (** [this.emit(name)] *)
  | SocketCloseCall
      (** [this.socket.close()] *)
  | FnCall (fn : Fn)
      (** [fn()] *).

(** The activation that performs an effect. *)
Inductive Actor :=
  | InSend (batch : nat)
  | InOnSent (cb : Callback) (err : option Error)
  | InDoClose
  | InListener.

Abbreviation Entry := (Actor * Effect)%type.

(** How the adapter treats a completion callback it is handed: it keeps it
    for later, or runs it before the call returns. *)
Inductive Completion :=
  | Deferred
  | Immediately (err : option Error).

(** The socket adapter. [respond] is its behaviour on a write, which may
    depend on everything that happened so far. *)
Record WsWebSocket := {
  _sender : option Sender;
  respond : list Entry → Completion;
}.

(** Modelled from the spec: the codec of the base class ([this.parser]),
    which is not part of these files.  Its contract is
    [encodePacket(packet, supportsBinary, callback(encodedPayload))]: the
    callback receives the encoded payload, once, before the call returns. *)
Record Parser := { encodePacket : Packet → bool → JsValue }.

Record PerMessageDeflate := { threshold : Z }.

(** ** The request and the factory *)

Record PreparedIncomingMessage := {
  _query : gmap string JsValue;
  websocket : option WsWebSocket;
}.

(** [obj.key] on an object used as a map. *)
Definition js_get (obj : gmap string JsValue) (key : string) : JsValue :=
  default JsUndefined (obj !! key).

(** The instances the polling constructor can return. The two classes are
    not part of these files: an instance is given by its class and the
    request it was constructed with. *)
Inductive PollingInstance :=
  | JSONP (req : PreparedIncomingMessage)
  | XHR (req : PreparedIncomingMessage).

Definition polling (req : PreparedIncomingMessage) : PollingInstance :=
  if String.eqb "string" (typeof (js_get (_query req) "j"))
  then JSONP req
  else XHR req.

(** ** The transport ([websocket.ts]) *)

(** The fields of the transport object, then what its environment holds. *)
Record World := {
  writable : bool;
  perMessageDeflate : option PerMessageDeflate;
  supportsBinary : bool;
  socket : WsWebSocket;
  parser : Parser;
  (** the ["close"] listener registered with [once] is still attached *)
  closeListener : bool;
  (** the [onSent] closures the adapter holds and has not run yet *)
  held : list Callback;
  (** every effect so far, oldest first *)
  trace : list Entry;
  (** the arguments of the calls to [send] so far, oldest first *)
  batches : list (list Packet);
}.

Definition with_writable (b : bool) (w : World) : World :=
  {| writable := b; perMessageDeflate := perMessageDeflate w;
     supportsBinary := supportsBinary w; socket := socket w;
     parser := parser w; closeListener := closeListener w;
     held := held w; trace := trace w; batches := batches w |}.

Definition with_perMessageDeflate (c : option PerMessageDeflate) (w : World) : World :=
  {| writable := writable w; perMessageDeflate := c;
     supportsBinary := supportsBinary w; socket := socket w;
     parser := parser w; closeListener := closeListener w;
     held := held w; trace := trace w; batches := batches w |}.

Definition with_closeListener (b : bool) (w : World) : World :=
  {| writable := writable w; perMessageDeflate := perMessageDeflate w;
     supportsBinary := supportsBinary w; socket := socket w;
     parser := parser w; closeListener := b;
     held := held w; trace := trace w; batches := batches w |}.

Definition with_held (l : list Callback) (w : World) : World :=
  {| writable := writable w; perMessageDeflate := perMessageDeflate w;
     supportsBinary := supportsBinary w; socket := socket w;
     parser := parser w; closeListener := closeListener w;
     held := l; trace := trace w; batches := batches w |}.

Definition with_trace (l : list Entry) (w : World) : World :=
  {| writable := writable w; perMessageDeflate := perMessageDeflate w;
     supportsBinary := supportsBinary w; socket := socket w;
     parser := parser w; closeListener := closeListener w;
     held := held w; trace := l; batches := batches w |}.

Definition with_batches (l : list (list Packet)) (w : World) : World :=
  {| writable := writable w; perMessageDeflate := perMessageDeflate w;
     supportsBinary := supportsBinary w; socket := socket w;
     parser := parser w; closeListener := closeListener w;
     held := held w; trace := trace w; batches := l |}.

(** Record that activation [a] performs effect [e]. *)
Definition perform (a : Actor) (e : Effect) (w : World) : World :=
  with_trace (trace w ++ [(a, e)]) w.

(** [this.writable = b] *)
Definition set_writable (a : Actor) (b : bool) (w : World) : World :=
  perform a (WritableSet b) (with_writable b w).

(** What the base class contributes to a new transport. *)
Record TransportBase := { base_parser : Parser; base_supportsBinary : bool }.

(** [constructor(req)]. [None]: [req.websocket] is missing and binding the
    listeners throws. *)
Definition new_WebSocket (req : PreparedIncomingMessage) (base : TransportBase)
  : option World :=
  match websocket req with
  | None => None
  | Some ws =>
      Some {| writable := true; perMessageDeflate := None;
              supportsBinary := base_supportsBinary base; socket := ws;
              parser := base_parser base; closeListener := true;
              held := []; trace := []; batches := [] |}
  end.

(** The listener on ["message"]. *)
Definition on_message (payload : JsValue) (isBinary : bool) (w : World) : World :=
  let message := if isBinary then payload else js_toString payload in
  perform InListener (OnData message) w.

(** The listener on ["close"], registered with [once]. *)
Definition on_close (w : World) : World :=
  if closeListener w
  then perform InListener OnClose (with_closeListener false w)
  else w.

(** The listener on ["error"]: [this.onError] bound to the transport. *)
Definition on_error (err : Error) (w : World) : World :=
  perform InListener (OnError (JsError err) JsUndefined) w.

(** The closure [onSent]. *)
Definition onSent (cb : Callback) (err : option Error) (w : World) : World :=
  let me := InOnSent cb err in
  match err with
  | Some e => perform me (OnError (JsString "write error") (JsString (stack e))) w
  | None =>
      if isLast cb
      then perform me (Emit "drain") (set_writable me true w)
      else w
  end.

(** The adapter has just been handed [cb] with a write. *)
Definition adapter_takes (cb : Callback) (w : World) : World :=
  match respond (socket w) (trace w) with
  | Deferred => with_held (held w ++ [cb]) w
  | Immediately err => onSent cb err w
  end.

(** [this.socket.send(data, opts, onSent)] *)
Definition socket_send (a : Actor) (payload : JsValue) (opts : SendOptions)
    (cb : Callback) (w : World) : World :=
  adapter_takes cb (perform a (SocketSend payload opts cb) w).

(** [this.socket._sender.sendFrame(frame, onSent)] *)
Definition sender_sendFrame (a : Actor) (frame : JsValue) (cb : Callback)
    (w : World) : World :=
  adapter_takes cb (perform a (SenderSendFrame frame cb) w).

(** [len] in the closure [send]: the byte length of a string, [data.length]
    otherwise. *)
Definition payload_len (payload : JsValue) : option Z :=
  match payload with
  | JsString s => Some (Buffer_byteLength s)
  | _ => js_length payload
  end.

(** [len < this.perMessageDeflate.threshold]; false when [len] is undefined. *)
Definition below_threshold (payload : JsValue) (c : PerMessageDeflate) : bool :=
  match payload_len payload with
  | Some len => (len <? threshold c)%Z
  | None => false
  end.

(** The closure [send] of one iteration: [opts] and [onSent] are the ones it
    captures. *)
Definition send_payload (a : Actor) (cb : Callback) (opts : SendOptions)
    (payload : JsValue) (w : World) : World :=
  let opts :=
    match perMessageDeflate w with
    | Some c =>
        if below_threshold payload c
        then {| opts_compress := Some false |}
        else opts
    | None => opts
    end in
  socket_send a payload opts cb w.

(** [packet.options?.field] *)
Definition option_field (field : PacketOptions → JsValue) (packet : Packet) : JsValue :=
  match options packet with
  | Some o => field o
  | None => JsUndefined
  end.

(** [this.socket?._sender?.sendFrame] *)
Definition socket_sendFrame_property (ws : WsWebSocket) : JsValue :=
  match _sender ws with
  | Some s => sendFrame s
  | None => JsUndefined
  end.

Definition _canSendPreEncodedFrame (packet : Packet) (w : World) : bool :=
  negb (bool_decide (is_Some (perMessageDeflate w)))
  && String.eqb (typeof (socket_sendFrame_property (socket w))) "function"
  && not_undefined (option_field wsPreEncodedFrame packet).

(** One iteration of the loop of [send]: packet [i] of a batch of [n]. *)
Definition send_packet (batch n i : nat) (packet : Packet) (w : World) : World :=
  let me := InSend batch in
  let isLast := Nat.eqb (i + 1) n in
  let opts :=
    match options packet with
    | Some o => {| opts_compress := compress o |}
    | None => {| opts_compress := None |}
    end in
  let onSent := {| cb_batch := batch; cb_index := i; isLast := isLast |} in
  if bool_decide (is_Some (options packet))
     && String.eqb (typeof (option_field wsPreEncoded packet)) "string"
  then send_payload me onSent opts (option_field wsPreEncoded packet) w
  else if _canSendPreEncodedFrame packet w
  then sender_sendFrame me (option_field wsPreEncodedFrame packet) onSent w
  else
    send_payload me onSent opts
      (encodePacket (parser w) packet (supportsBinary w))
      (perform me (ParserEncodePacket packet (supportsBinary w)) w).

(** The loop [for (let i = 0; i < packets.length; i++)], from index [i] on. *)
Fixpoint send_loop (batch n i : nat) (rest : list Packet) (w : World) : World :=
  match rest with
  | [] => w
  | packet :: rest' => send_loop batch n (S i) rest' (send_packet batch n i packet w)
  end.

(** [send(packets)] *)
Definition send (packets : list Packet) (w : World) : World :=
  let batch := length (batches w) in
  let w := with_batches (batches w ++ [packets]) w in
  send_loop batch (length packets) 0 packets (set_writable (InSend batch) false w).

(** [doClose(fn)] *)
Definition doClose (fn : option Fn) (w : World) : World :=
  let w := perform InDoClose SocketCloseCall w in
  match fn with
  | Some f => perform InDoClose (FnCall f) w
  | None => w
  end.

(** ** What can happen to a transport *)

Inductive Action :=
  | CallSend (packets : list Packet)
      (** the upper layer calls [send] *)
  | CallDoClose (fn : option Fn)
      (** the upper layer calls [doClose] *)
  | SetPerMessageDeflate (c : option PerMessageDeflate)
      (** the server assigns [transport.perMessageDeflate] *)
  | AdapterCompletes (k : nat) (err : option Error)
      (** the adapter runs the [k]-th callback it holds and lets go of it: a
          callback is run at most once, in any order *)
  | SocketMessage (payload : JsValue) (isBinary : bool)
  | SocketClose
  | SocketError (err : Error).

Definition step (a : Action) (w : World) : option World :=
  match a with
  | CallSend packets => Some (send packets w)
  | CallDoClose fn => Some (doClose fn w)
  | SetPerMessageDeflate c => Some (with_perMessageDeflate c w)
  | AdapterCompletes k err =>
      match held w !! k with
      | Some cb => Some (onSent cb err (with_held (delete k (held w)) w))
      | None => None
      end
  | SocketMessage payload isBinary => Some (on_message payload isBinary w)
  | SocketClose => Some (on_close w)
  | SocketError err => Some (on_error err w)
  end.

(** The worlds a transport can be in when its users follow [policy]. *)
Inductive runs (policy : Action → World → Prop) : World → Prop :=
  | runs_new req base w :
      new_WebSocket req base = Some w → runs policy w
  | runs_step a w w' :
      runs policy w → policy a w → step a w = Some w' → runs policy w'.

(** Any use at all. *)
Definition any_use (a : Action) (w : World) : Prop := True.

(** The upper layer honours the flag: it calls [send] only on a writable
    transport. *)
Definition honours_writable (a : Action) (w : World) : Prop :=
  match a with
  | CallSend _ => writable w = true
  | _ => True
  end.

Definition reachable : World → Prop := runs any_use.
Definition cooperative : World → Prop := runs honours_writable.

(** ** Reading traces *)

(** The effects performed between two worlds of one run. *)
Definition effects_since (w w' : World) : list Entry :=
  drop (length (trace w)) (trace w').

(** An effect that writes to the channel: a send through the adapter (of a
    serialized payload or of a pre-encoded string) or a raw frame injected
    through the sender. *)
Definition is_write (e : Entry) : bool :=
  match e.2 with
  | SocketSend _ _ _ | SenderSendFrame _ _ => true
  | _ => false
  end.

Definition is_encode (e : Entry) : bool :=
  match e.2 with
  | ParserEncodePacket _ _ => true
  | _ => false
  end.

Definition is_socket_send (e : Entry) : bool :=
  match e.2 with
  | SocketSend _ _ _ => true
  | _ => false
  end.

Definition is_sendFrame (e : Entry) : bool :=
  match e.2 with
  | SenderSendFrame _ _ => true
  | _ => false
  end.

Definition is_socket_close (e : Entry) : bool :=
  match e.2 with
  | SocketCloseCall => true
  | _ => false
  end.

Definition is_fn_call (e : Entry) : bool :=
  match e.2 with
  | FnCall _ => true
  | _ => false
  end.

Definition is_drain (e : Entry) : bool :=
  match e.2 with
  | Emit name => String.eqb name "drain"
  | _ => false
  end.

(** The batch whose callback performed the entry, if a callback did. *)
Definition batch_of_callback (e : Entry) : option nat :=
  match e.1 with
  | InOnSent cb _ => Some (cb_batch cb)
  | _ => None
  end.

(** A ["drain"] emitted by a callback of batch [b]. *)
Definition is_drain_of (b : nat) (e : Entry) : bool :=
  is_drain e && bool_decide (batch_of_callback e = Some b).

Definition count (f : Entry → bool) (l : list Entry) : nat :=
  length (List.filter f l).

(** [cb] is the callback of the final packet of its batch. *)
Definition final_callback (w : World) (cb : Callback) : Prop :=
  ∃ packets, batches w !! cb_batch cb = Some packets
             ∧ cb_index cb + 1 = length packets.

(** The world in which the loop of [send packets], called in [w], arrives
    at index [i]. *)
Definition reaches (packets : list Packet) (i : nat) (w : World) : World :=
  let batch := length (batches w) in
  send_loop batch (length packets) 0 (take i packets)
    (set_writable (InSend batch) false (with_batches (batches w ++ [packets]) w)).

(** The callback created for packet [i] of batch [batch] of [n] packets. *)
Definition callback_of (batch n i : nat) : Callback :=
  {| cb_batch := batch; cb_index := i; isLast := Nat.eqb (i + 1) n |}.

(** What a run of [onSent] adds to the trace. *)
Definition onSent_effects (cb : Callback) (err : option Error) : list Entry :=
  match err with
  | Some e =>
      [(InOnSent cb err, OnError (JsString "write error") (JsString (stack e)))]
  | None =>
      if isLast cb
      then [(InOnSent cb None, WritableSet true); (InOnSent cb None, Emit "drain")]
      else []
  end.

(** What the adapter's treatment of a callback adds to the trace. *)
Definition reaction (cb : Callback) (c : Completion) : list Entry :=
  match c with
  | Deferred => []
  | Immediately err => onSent_effects cb err
  end.

(** The configuration of the transport, which sending never changes. *)
Definition same_setup (w w' : World) : Prop :=
  perMessageDeflate w' = perMessageDeflate w
  ∧ supportsBinary w' = supportsBinary w
  ∧ socket w' = socket w
  ∧ parser w' = parser w
  ∧ closeListener w' = closeListener w
  ∧ batches w' = batches w.

(** The write [wr], with completion callback [cb], puts packet [packet] on
    the wire: it is a send of the packet's pre-encoded string, an injection of
    its pre-encoded frame, or a send of what the codec makes of it. *)
Definition carries (w : World) (cb : Callback) (packet : Packet) (wr : Effect) : Prop :=
  (∃ o s opts, options packet = Some o ∧ wsPreEncoded o = JsString s
               ∧ wr = SocketSend (JsString s) opts cb)
  ∨ (∃ o, options packet = Some o
          ∧ wr = SenderSendFrame (wsPreEncodedFrame o) cb)
  ∨ (∃ opts, wr = SocketSend (encodePacket (parser w) packet (supportsBinary w)) opts cb).

(** The options the closure [send] hands on with [payload] when it was
    created with [opts]. *)
Definition effective_opts (w : World) (opts : SendOptions) (payload : JsValue)
  : SendOptions :=
  match perMessageDeflate w with
  | Some c =>
      if below_threshold payload c
      then {| opts_compress := Some false |}
      else opts
  | None => opts
  end.

(** The [opts] object an iteration creates for [packet]. *)
Definition fresh_opts (packet : Packet) : SendOptions :=
  match options packet with
  | Some o => {| opts_compress := compress o |}
  | None => {| opts_compress := None |}
  end.

(** The test of the first branch of an iteration. *)
Definition has_pre_encoded_string (packet : Packet) : bool :=
  bool_decide (is_Some (options packet))
  && String.eqb (typeof (option_field wsPreEncoded packet)) "string".

(** The three ways an iteration writes its packet: what its own code
    performs before the write, and the write. *)
Inductive dispatch (w : World) (batch : nat) (cb : Callback) (packet : Packet)
  : list Entry → Effect → Prop :=
  | dispatch_string o s :
      options packet = Some o →
      wsPreEncoded o = JsString s →
      dispatch w batch cb packet []
        (SocketSend (JsString s)
           (effective_opts w (fresh_opts packet) (JsString s)) cb)
  | dispatch_frame :
      has_pre_encoded_string packet = false →
      _canSendPreEncodedFrame packet w = true →
      dispatch w batch cb packet []
        (SenderSendFrame (option_field wsPreEncodedFrame packet) cb)
  | dispatch_codec :
      has_pre_encoded_string packet = false →
      _canSendPreEncodedFrame packet w = false →
      dispatch w batch cb packet
        [(InSend batch, ParserEncodePacket packet (supportsBinary w))]
        (SocketSend (encodePacket (parser w) packet (supportsBinary w))
           (effective_opts w (fresh_opts packet)
              (encodePacket (parser w) packet (supportsBinary w))) cb).

(** ** Bookkeeping of the completion callbacks *)

(** [cb] belongs to a batch that was sent and captured the right flag. *)
Definition wf_callback (w : World) (cb : Callback) : Prop :=
  ∃ packets, batches w !! cb_batch cb = Some packets
             ∧ isLast cb = Nat.eqb (cb_index cb + 1) (length packets).

(** A callback that captured [isLast = true] in batch [b]. *)
Definition held_final (b : nat) (cb : Callback) : bool :=
  isLast cb && Nat.eqb (cb_batch cb) b.

(** The entry by which such a callback shows that it ran: the report of an
    error, or the emission. *)
Definition fired_final (b : nat) (x : Entry) : bool :=
  match x with
  | (InOnSent cb _, OnError _ _) | (InOnSent cb _, Emit _) => held_final b cb
  | _ => false
  end.

(** Runs, past and still possible, of the final callback of batch [b]. *)
Definition final_runs (b : nat) (w : World) : nat :=
  count (fired_final b) (trace w) + length (List.filter (held_final b) (held w)).

(** An entry that is neither made by a callback nor touches what only the
    callbacks do. *)
Definition quiet (x : Entry) : bool :=
  match x with
  | (InOnSent _ _, _) => false
  | (_, WritableSet true) => false
  | (_, Emit _) => false
  | _ => true
  end.

Record invariant (w : World) : Prop := {
  inv_held : ∀ cb, cb ∈ held w → wf_callback w cb;
  inv_trace : ∀ cb err e, (InOnSent cb err, e) ∈ trace w → wf_callback w cb;
  inv_source :
    ∀ a e, (a, e) ∈ trace w →
           e = WritableSet true ∨ (∃ name, e = Emit name) →
           ∃ cb, a = InOnSent cb None ∧ isLast cb = true;
  inv_once : ∀ b, final_runs b w ≤ 1;
}.

(** What the callbacks need before one of them is handed over or run. *)
Definition accepts (w : World) (cb : Callback) : Prop :=
  (∀ cb', cb' ∈ held w → wf_callback w cb')
  ∧ (∀ cb' err e, (InOnSent cb' err, e) ∈ trace w → wf_callback w cb')
  ∧ (∀ a e, (a, e) ∈ trace w →
            e = WritableSet true ∨ (∃ name, e = Emit name) →
            ∃ cb', a = InOnSent cb' None ∧ isLast cb' = true)
  ∧ wf_callback w cb
  ∧ ∀ b, final_runs b w + (if held_final b cb then 1 else 0) ≤ 1.

(** What holds besides when [send] is only called on a writable
    transport: a held callback of a final packet belongs to the latest batch
    and the flag is down while it is held; when the flag is up after a batch,
    the final callback of the latest batch ran without an error. *)
Record coop_invariant (w : World) : Prop := {
  coop_held :
    ∀ cb, cb ∈ held w → isLast cb = true →
          cb_batch cb + 1 = length (batches w) ∧ writable w = false;
  coop_writable :
    writable w = true →
    batches w = []
    ∨ ∃ cb, cb_batch cb + 1 = length (batches w)
            ∧ isLast cb = true
            ∧ (InOnSent cb None, WritableSet true) ∈ trace w
            ∧ (InOnSent cb None, Emit "drain") ∈ trace w;
}.

(** ** A concrete transport *)

(** A codec in the manner of the engine's: a text message is its type digit
    followed by its text; binary data passes as it is. *)
Definition demo_parser : Parser :=
  {| encodePacket := λ packet _,
       match data packet with
       | JsString s => JsString (String.append "4" s)
       | d => d
       end |}.

(** An adapter with a sender that can inject frames and that completes
    every write later. *)
Definition demo_socket : WsWebSocket :=
  {| _sender := Some {| sendFrame := JsFunction 2 |};
     respond := λ _, Deferred |}.

(** An adapter that completes every write before returning: the first two
    with an error, the later ones without. *)
Definition failing_socket : WsWebSocket :=
  {| _sender := None;
     respond := λ tr,
       if Nat.ltb (count is_write tr) 3
       then Immediately (Some {| message := "closed"; stack := "Error: closed" |})
       else Immediately None |}.

Definition demo_base : TransportBase :=
  {| base_parser := demo_parser; base_supportsBinary := true |}.

Definition demo_request : PreparedIncomingMessage :=
  {| _query := ∅; websocket := Some demo_socket |}.

Definition failing_request : PreparedIncomingMessage :=
  {| _query := ∅; websocket := Some failing_socket |}.

(** The transport built from [demo_request]. *)
Definition demo_world : World :=
  {| writable := true; perMessageDeflate := None; supportsBinary := true;
     socket := demo_socket; parser := demo_parser; closeListener := true;
     held := []; trace := []; batches := [] |}.

(** The transport built from [failing_request]. *)
Definition failing_world : World :=
  {| writable := true; perMessageDeflate := None; supportsBinary := true;
     socket := failing_socket; parser := demo_parser; closeListener := true;
     held := []; trace := []; batches := [] |}.

(** A plain message, one that asks for compression, one with a pre-encoded
    string and one with a pre-encoded frame. *)
Definition plain_packet : Packet :=
  {| type := "message"; data := JsString "hello"; options := None |}.

Definition compress_packet : Packet :=
  {| type := "message"; data := JsString "hello";
     options := Some {| compress := Some true; wsPreEncoded := JsUndefined;
                        wsPreEncodedFrame := JsUndefined |} |}.

Definition string_packet : Packet :=
  {| type := "message"; data := JsString "hello";
     options := Some {| compress := Some true; wsPreEncoded := JsString "X";
                        wsPreEncodedFrame := JsArray [JsBuffer []] |} |}.

Definition frame_packet : Packet :=
  {| type := "message"; data := JsString "hello";
     options := Some {| compress := None; wsPreEncoded := JsUndefined;
                        wsPreEncodedFrame := JsArray [JsBuffer []] |} |}.

(** A batch of two packets sent on [demo_world], and the world after the
    adapter has run the callback of the final packet without an error. *)
Definition demo_sent : World := send [plain_packet; string_packet] demo_world.

Definition demo_drained : World :=
  onSent (callback_of 0 2 1) None (with_held [callback_of 0 2 0] demo_sent).

(** The same batch when the adapter has run the callback of the final
    packet with an error. *)
Definition write_failure : Error :=
  {| message := "closed"; stack := "Error: closed" |}.

Definition demo_failed : World :=
  onSent (callback_of 0 2 1) (Some write_failure)
    (with_held [callback_of 0 2 0] demo_sent).

(** [demo_world] once the server has configured compression. *)
Definition compressing_world : World :=
  with_perMessageDeflate (Some {| threshold := 1024 |}) demo_world.

(** ** Vocabulary of the further properties *)

(** [w'] is reached from [w] by steps that follow [policy]. *)
Inductive follows (policy : Action → World → Prop) (w : World) : World → Prop :=
  | follows_here : follows policy w w
  | follows_step a w' w'' :
      follows policy w w' → policy a w' → step a w' = Some w'' →
      follows policy w w''.

(** Only the socket acts: it emits ["message"], ["close"] and ["error"]. *)
Definition only_socket_events (a : Action) (w : World) : Prop :=
  match a with
  | SocketMessage _ _ | SocketClose | SocketError _ => True
  | _ => False
  end.

Definition is_onClose (e : Entry) : bool :=
  match e.2 with
  | OnClose => true
  | _ => false
  end.

Definition is_onData (e : Entry) : bool :=
  match e.2 with
  | OnData _ => true
  | _ => false
  end.

(** The report of a failed write: [onError] called by a callback. *)
Definition is_write_error (e : Entry) : bool :=
  match e with
  | (InOnSent _ _, OnError _ _) => true
  | _ => false
  end.

(** The packet takes the third branch of an iteration: it is serialized. *)
Definition takes_codec (w : World) (packet : Packet) : bool :=
  negb (has_pre_encoded_string packet)
  && negb (_canSendPreEncodedFrame packet w).

(** The [compress] flag a packet asks for; [None] is [undefined]. *)
Definition requested_compress (packet : Packet) : option bool :=
  match options packet with
  | Some o => compress o
  | None => None
  end.

(** An entry made by [doClose] or by one of the listeners. *)
Definition bystander (x : Entry) : bool :=
  match x with
  | (InDoClose, SocketCloseCall) | (InDoClose, FnCall _)
  | (InListener, OnData _) | (InListener, OnClose)
  | (InListener, OnError _ _) => true
  | _ => false
  end.

(** The callbacks of final packets, run with a ["drain"] or still held. *)
Definition finals (w : World) : nat :=
  count is_drain (trace w) + length (List.filter isLast (held w)).

(** Nobody assigns [perMessageDeflate]. *)
Definition never_configures (a : Action) (w : World) : Prop :=
  match a with
  | SetPerMessageDeflate _ => False
  | _ => True
  end.

(** * Properties *)

(** ** The factory *)

(** C7. The [polling] constructor looks at the query attribute [j] of the
    request it is given: a string (for instance ["3"]) yields the JSONP
    variant built from that request, anything else, an absent [j] included,
    yields the plain polling variant built from that request; over a sequence
    of requests every one is dispatched on its own [j]. *)
Theorem polling_dispatches_on_j :
  (∀ req,
     polling req =
     match _query req !! "j" with
     | Some (JsString _) => JSONP req
     | _ => XHR req
     end)
  ∧ (∀ q ws,
       let req := {| _query := <["j" := JsString "3"]> q; websocket := ws |} in
       polling req = JSONP req)
  ∧ (∀ q ws,
       let req := {| _query := delete "j" q; websocket := ws |} in
       polling req = XHR req)
  ∧ (∀ reqs : list PreparedIncomingMessage,
       polling <$> reqs =
       (λ req, match _query req !! "j" with
               | Some (JsString _) => JSONP req
               | _ => XHR req
               end) <$> reqs).
Proof.
  assert (Hone : ∀ req,
     polling req =
     match _query req !! "j" with
     | Some (JsString _) => JSONP req
     | _ => XHR req
     end).
  { intros req. unfold polling, js_get.
    destruct (_query req !! "j") as [[]|]; reflexivity. }
  split; [exact Hone|].
  split.
  { intros q ws req. rewrite Hone. subst req. simpl.
    by rewrite lookup_insert_eq. }
  split.
  { intros q ws req. rewrite Hone. subst req. simpl.
    by rewrite lookup_delete_eq. }
  intros reqs. apply list_fmap_ext. intros _ req _. apply Hone.
Qed.

(** ** Closing *)

(** C8. [doClose(fn)] calls [close()] on the adapter exactly once and then,
    if [fn] was given, calls it exactly once before returning; when the
    adapter emits its own ["close"] afterwards, the listener runs the close
    handler of the base class and neither [close()] nor [fn] is called
    again. *)
Theorem doClose_closes_then_calls_back :
  ∀ (fn : option Fn) (w : World),
    let called := match fn with Some f => [(InDoClose, FnCall f)] | None => [] end in
    trace (doClose fn w) = trace w ++ (InDoClose, SocketCloseCall) :: called
    ∧ count is_socket_close (effects_since w (doClose fn w)) = 1
    ∧ count is_fn_call (effects_since w (doClose fn w)) = match fn with Some _ => 1 | None => 0 end
    ∧ writable (doClose fn w) = writable w
    ∧ held (doClose fn w) = held w
    ∧ count is_socket_close (effects_since w (on_close (doClose fn w))) = 1
    ∧ count is_fn_call (effects_since w (on_close (doClose fn w))) = match fn with Some _ => 1 | None => 0 end.
Proof.
  intros fn w called.
  assert (Ht : trace (doClose fn w) = trace w ++ (InDoClose, SocketCloseCall) :: called).
  { subst called. destruct fn; simpl; [|reflexivity].
    by rewrite <- app_assoc. }
  assert (Hc : trace (on_close (doClose fn w)) =
               trace w ++ ((InDoClose, SocketCloseCall) :: called)
                       ++ (if closeListener w then [(InListener, OnClose)] else [])).
  { unfold on_close.
    replace (closeListener (doClose fn w)) with (closeListener w)
      by (destruct fn; reflexivity).
    destruct (closeListener w); simpl.
    - replace (trace (with_closeListener false (doClose fn w)))
        with (trace (doClose fn w)) by reflexivity.
      rewrite Ht. by rewrite <- app_assoc.
    - rewrite Ht. by rewrite app_nil_r. }
  unfold effects_since. rewrite Hc, Ht, !drop_app_length.
  subst called.
  repeat split; try (destruct fn; reflexivity).
  - destruct fn, (closeListener w); reflexivity.
  - destruct fn, (closeListener w); reflexivity.
Qed.

(** ** Sending: what one step adds *)

Ltac unfold_ops :=
  unfold send_packet, send_payload, sender_sendFrame, socket_send,
    adapter_takes, onSent, set_writable, perform, reaction, onSent_effects,
    callback_of in *.

Lemma same_setup_refl w : same_setup w w.
Proof. by repeat split. Qed.

Lemma same_setup_trans w1 w2 w3 :
  same_setup w1 w2 → same_setup w2 w3 → same_setup w1 w3.
Proof.
  intros (?&?&?&?&?&?) (?&?&?&?&?&?). repeat split; congruence.
Qed.

Lemma onSent_trace cb err w :
  trace (onSent cb err w) = trace w ++ onSent_effects cb err.
Proof.
  unfold_ops. destruct err; [done|].
  destruct (isLast cb); simpl; [|by rewrite app_nil_r].
  by rewrite <- app_assoc.
Qed.

Lemma onSent_held cb err w : held (onSent cb err w) = held w.
Proof. unfold_ops. destruct err; [done|]. by destruct (isLast cb). Qed.

Lemma onSent_setup cb err w : same_setup w (onSent cb err w).
Proof.
  unfold_ops. destruct err; [by repeat split|].
  destruct (isLast cb); by repeat split.
Qed.

Lemma onSent_writable cb err w :
  writable (onSent cb err w) =
  match err with
  | None => if isLast cb then true else writable w
  | Some _ => writable w
  end.
Proof. unfold_ops. destruct err; [done|]. by destruct (isLast cb). Qed.

Lemma adapter_takes_trace cb w :
  trace (adapter_takes cb w) =
  trace w ++ reaction cb (respond (socket w) (trace w)).
Proof.
  unfold adapter_takes, reaction.
  destruct (respond (socket w) (trace w)).
  - simpl. by rewrite app_nil_r.
  - apply onSent_trace.
Qed.

Lemma adapter_takes_held cb w :
  held (adapter_takes cb w) =
  held w ++ match respond (socket w) (trace w) with
            | Deferred => [cb]
            | Immediately _ => []
            end.
Proof.
  unfold adapter_takes.
  destruct (respond (socket w) (trace w)); [done|].
  by rewrite onSent_held, app_nil_r.
Qed.

Lemma adapter_takes_setup cb w : same_setup w (adapter_takes cb w).
Proof.
  unfold adapter_takes.
  destruct (respond (socket w) (trace w)); [by repeat split|].
  apply onSent_setup.
Qed.

Lemma adapter_takes_writable cb w :
  writable (adapter_takes cb w) =
  match respond (socket w) (trace w) with
  | Immediately None => if isLast cb then true else writable w
  | _ => writable w
  end.
Proof.
  unfold adapter_takes.
  destruct (respond (socket w) (trace w)) as [|err]; [done|].
  rewrite onSent_writable. by destruct err.
Qed.

Lemma typeof_string v :
  String.eqb (typeof v) "string" = true → ∃ s, v = JsString s.
Proof. destruct v; simpl; try discriminate. eauto. Qed.

(** One iteration: the code of the iteration itself performs the codec
    call, if any, and the write; then the adapter has the callback. *)
Lemma send_packet_inv batch n i packet w :
  ∃ (own : list Entry) (wr : Effect) (w1 : World),
    send_packet batch n i packet w = adapter_takes (callback_of batch n i) w1
    ∧ trace w1 = trace w ++ own ++ [(InSend batch, wr)]
    ∧ held w1 = held w
    ∧ writable w1 = writable w
    ∧ same_setup w w1
    ∧ carries w (callback_of batch n i) packet wr
    ∧ (own = [] ∨ own = [(InSend batch, ParserEncodePacket packet (supportsBinary w))]).
Proof.
  unfold send_packet.
  destruct (bool_decide (is_Some (options packet))
            && String.eqb (typeof (option_field wsPreEncoded packet)) "string")
    eqn:Hpre.
  - apply andb_true_iff in Hpre as [Ho Hs].
    apply bool_decide_eq_true in Ho as [o Ho].
    apply typeof_string in Hs as [s Hs].
    unfold option_field in *. rewrite Ho in *. rewrite Hs.
    eexists [], _, _. unfold send_payload, socket_send.
    split; [reflexivity|]. simpl. repeat split; auto.
    left. by eexists o, s, _.
  - destruct (_canSendPreEncodedFrame packet w) eqn:Hcan.
    + unfold _canSendPreEncodedFrame in Hcan.
      apply andb_true_iff in Hcan as [_ Hf].
      unfold option_field in *.
      destruct (options packet) as [o|] eqn:Ho; [|discriminate].
      eexists [], _, _. unfold sender_sendFrame.
      split; [reflexivity|]. simpl. repeat split; auto.
      right; left. by exists o.
    + eexists [_], _, _. unfold send_payload, socket_send.
      split; [reflexivity|]. simpl. rewrite <- app_assoc.
      repeat split; auto.
      right; right. by eexists.
Qed.

Lemma carries_is_write w cb packet a wr :
  carries w cb packet wr → is_write (a, wr) = true.
Proof. intros [(?&?&?&?&?&->)|[(?&?&->)|(?&->)]]; reflexivity. Qed.

Lemma carries_setup w w' cb packet wr :
  same_setup w w' → carries w' cb packet wr → carries w cb packet wr.
Proof.
  intros (_&Hb&_&Hp&_) [H|[H|(opts&->)]]; [by left|by right; left|].
  right; right. rewrite Hb, Hp. eauto.
Qed.

Lemma reaction_no_write cb c : List.filter is_write (reaction cb c) = [].
Proof.
  destruct c as [|[e|]]; simpl; [done|done|]. by destruct (isLast cb).
Qed.

(** The trace, the held callbacks and the flag after one iteration. *)
Lemma send_packet_outcome batch n i packet w :
  let cb := callback_of batch n i in
  ∃ (own : list Entry) (wr : Effect) (c : Completion),
    trace (send_packet batch n i packet w) =
      trace w ++ own ++ (InSend batch, wr) :: reaction cb c
    ∧ held (send_packet batch n i packet w) =
        held w ++ match c with Deferred => [cb] | Immediately _ => [] end
    ∧ writable (send_packet batch n i packet w) =
        match c with
        | Immediately None => if isLast cb then true else writable w
        | _ => writable w
        end
    ∧ same_setup w (send_packet batch n i packet w)
    ∧ carries w cb packet wr
    ∧ (own = [] ∨ own = [(InSend batch, ParserEncodePacket packet (supportsBinary w))]).
Proof.
  intros cb.
  destruct (send_packet_inv batch n i packet w)
    as (own & wr & w1 & -> & Ht & Hh & Hw & Hs & Hc & Hown).
  exists own, wr, (respond (socket w1) (trace w1)).
  rewrite adapter_takes_trace, adapter_takes_held, adapter_takes_writable.
  rewrite Ht, Hh, Hw. rewrite <- !app_assoc. simpl.
  pose proof (adapter_takes_setup cb w1) as Hs1.
  pose proof (same_setup_trans _ _ _ Hs Hs1) as Hs2.
  repeat split; auto; try apply Hs2.
Qed.

Lemma own_no_write batch packet sb (own : list Entry) :
  own = [] ∨ own = [(InSend batch, ParserEncodePacket packet sb)] →
  List.filter is_write own = [].
Proof. by intros [->| ->]. Qed.

Lemma filter_iteration batch own wr cb c packet sb w p :
  carries w cb p wr →
  own = [] ∨ own = [(InSend batch, ParserEncodePacket packet sb)] →
  List.filter is_write (own ++ (InSend batch, wr) :: reaction cb c)
  = [(InSend batch, wr)].
Proof.
  intros Hc Hown. rewrite List.filter_app. simpl.
  rewrite (own_no_write _ _ _ _ Hown), (carries_is_write _ _ _ _ _ Hc).
  by rewrite reaction_no_write.
Qed.

(** ** Sending: the loop *)

Lemma send_loop_writes batch n rest :
  ∀ i w,
  ∃ added,
    trace (send_loop batch n i rest w) = trace w ++ added
    ∧ same_setup w (send_loop batch n i rest w)
    ∧ length (List.filter is_write added) = length rest
    ∧ ∀ j packet, rest !! j = Some packet →
        ∃ wr, List.filter is_write added !! j = Some (InSend batch, wr)
              ∧ carries w (callback_of batch n (i + j)) packet wr.
Proof.
  induction rest as [|p rest IH]; intros i w; simpl.
  - exists []. rewrite app_nil_r.
    split; [done|]. split; [apply same_setup_refl|]. split; [done|].
    intros j packet Hj. by rewrite lookup_nil in Hj.
  - destruct (send_packet_outcome batch n i p w)
      as (own & wr & c & Ht & _ & _ & Hs & Hc & Hown).
    destruct (IH (S i) (send_packet batch n i p w))
      as (added & Ht' & Hs' & Hlen & Hall).
    exists ((own ++ (InSend batch, wr) :: reaction (callback_of batch n i) c) ++ added).
    split; [by rewrite Ht', Ht, <- app_assoc|].
    split; [by eapply same_setup_trans|].
    rewrite List.filter_app.
    rewrite (filter_iteration _ _ _ _ _ _ _ _ _ Hc Hown). simpl.
    split; [by rewrite Hlen|].
    intros [|j] packet Hj; simpl in *.
    + injection Hj as <-. exists wr. by rewrite Nat.add_0_r.
    + destruct (Hall j packet Hj) as (wr' & Hw' & Hc').
      exists wr'. split; [done|].
      replace (i + S j) with (S i + j) by lia.
      by eapply carries_setup.
Qed.

Lemma effects_since_app w w' added :
  trace w' = trace w ++ added → effects_since w w' = added.
Proof. unfold effects_since. intros ->. by rewrite drop_app_length. Qed.

(** C2. A call of [send] with [N] packets makes exactly [N] writes to the
    channel, counting sends through the adapter (of serialized payloads and
    of pre-encoded strings alike) and injected raw frames, and the [i]-th of
    these writes is the one that carries the [i]-th packet. *)
Theorem send_writes_each_packet_in_order :
  ∀ (w : World) (packets : list Packet),
    let batch := length (batches w) in
    let writes := List.filter is_write (effects_since w (send packets w)) in
    length writes = length packets
    ∧ ∀ i packet, packets !! i = Some packet →
        ∃ wr, writes !! i = Some (InSend batch, wr)
              ∧ carries w (callback_of batch (length packets) i) packet wr.
Proof.
  intros w packets batch writes. subst writes. unfold send. fold batch.
  set (w0 := set_writable (InSend batch) false
               (with_batches (batches w ++ [packets]) w)).
  destruct (send_loop_writes batch (length packets) packets 0 w0)
    as (added & Ht & Hs & Hlen & Hall).
  rewrite (effects_since_app w _ ((InSend batch, WritableSet false) :: added)).
  2:{ rewrite Ht. subst w0. simpl. by rewrite <- app_assoc. }
  simpl. split; [done|].
  intros i packet Hi. destruct (Hall i packet Hi) as (wr & Hw & Hc).
  exists wr. split; [done|].
  destruct Hc as [H|[H|(opts&->)]]; [by left|by right; left|].
  right; right. by exists opts.
Qed.

(** ** Sending: the iteration of one packet *)

Lemma reaction_by_callback cb c (x : Entry) :
  x ∈ reaction cb c → ∃ err, x.1 = InOnSent cb err.
Proof.
  destruct c as [|[e|]]; simpl.
  - by intros ?%elem_of_nil.
  - intros ->%list_elem_of_singleton. by eexists.
  - destruct (isLast cb); [|by intros ?%elem_of_nil].
    intros [->|[->|?%elem_of_nil]%elem_of_cons]%elem_of_cons;
      [by eexists|by eexists|done].
Qed.

Lemma send_payload_trace a cb opts payload w :
  let wr := (a, SocketSend payload (effective_opts w opts payload) cb) in
  trace (send_payload a cb opts payload w) =
  trace w ++ wr :: reaction cb (respond (socket w) (trace w ++ [wr])).
Proof.
  intros wr. unfold send_payload, socket_send.
  rewrite adapter_takes_trace. simpl. by rewrite <- app_assoc.
Qed.

Lemma sender_sendFrame_trace a cb frame w :
  let wr := (a, SenderSendFrame frame cb) in
  trace (sender_sendFrame a frame cb w) =
  trace w ++ wr :: reaction cb (respond (socket w) (trace w ++ [wr])).
Proof.
  intros wr. unfold sender_sendFrame.
  rewrite adapter_takes_trace. simpl. by rewrite <- app_assoc.
Qed.

Lemma send_loop_app batch n l1 l2 :
  ∀ i w,
    send_loop batch n i (l1 ++ l2) w =
    send_loop batch n (i + length l1) l2 (send_loop batch n i l1 w).
Proof.
  induction l1 as [|p l1 IH]; intros i w; simpl.
  - by rewrite Nat.add_0_r.
  - rewrite IH. f_equal. lia.
Qed.

(** [send] as the iteration of packet [i] between the iterations before and
    after it. *)
Lemma send_at w packets i packet :
  packets !! i = Some packet →
  let batch := length (batches w) in
  let n := length packets in
  let wi := reaches packets i w in
  let wi' := send_packet batch n i packet wi in
  send packets w = send_loop batch n (S i) (drop (S i) packets) wi'
  ∧ perMessageDeflate wi = perMessageDeflate w
  ∧ supportsBinary wi = supportsBinary w
  ∧ socket wi = socket w
  ∧ parser wi = parser w
  ∧ ∀ e, List.filter is_write (effects_since wi wi') = [e] →
         List.filter is_write (effects_since w (send packets w)) !! i = Some e.
Proof.
  intros Hi batch n wi wi'.
  pose proof (lookup_lt_Some _ _ _ Hi) as Hlt.
  set (w0 := set_writable (InSend batch) false
               (with_batches (batches w ++ [packets]) w)).
  assert (Hsend : send packets w = send_loop batch n (S i) (drop (S i) packets) wi').
  { unfold send. fold batch n w0.
    rewrite <- (take_drop i packets) at 1.
    rewrite send_loop_app, length_take_le by lia. simpl.
    by rewrite (drop_S _ _ _ Hi). }
  destruct (send_loop_writes batch n (take i packets) 0 w0)
    as (before & Hb0 & Hsb0 & Hlb & _).
  assert (Hb : trace wi = trace w0 ++ before) by exact Hb0.
  assert (Hsb : same_setup w0 wi) by exact Hsb0.
  clear Hb0 Hsb0.
  rewrite length_take_le in Hlb by lia.
  destruct (send_loop_writes batch n (drop (S i) packets) (S i) wi')
    as (after & Ha & _).
  destruct Hsb as (H1 & H2 & H3 & H4 & _).
  split; [done|]. repeat split; try done.
  intros e He.
  destruct (send_packet_outcome batch n i packet wi)
    as (own & wr & c & Ht & _).
  fold wi' in Ht.
  rewrite (effects_since_app wi wi' _ Ht) in He.
  rewrite (effects_since_app w _
    (((InSend batch, WritableSet false) :: before)
       ++ (own ++ (InSend batch, wr) :: reaction (callback_of batch n i) c)
       ++ after)).
  2:{ rewrite Hsend, Ha, Ht, Hb. subst w0. simpl.
      by rewrite <- !app_assoc. }
  rewrite (List.filter_app is_write (_ :: before)).
  rewrite (List.filter_app is_write (own ++ _) after), He. simpl.
  rewrite lookup_app_r by lia. by rewrite Hlb, Nat.sub_diag.
Qed.

Lemma reaction_filter (f : Entry → bool) cb c :
  (∀ a m d, f (a, OnError m d) = false) →
  (∀ a b, f (a, WritableSet b) = false) →
  (∀ a name, f (a, Emit name) = false) →
  List.filter f (reaction cb c) = [].
Proof.
  intros He Hw Hd. destruct c as [|[e|]]; simpl; [done|by rewrite He|].
  destruct (isLast cb); simpl; [|done]. by rewrite Hw, Hd.
Qed.

Lemma send_packet_dispatch batch n i packet w :
  let cb := callback_of batch n i in
  ∃ own wr,
    dispatch w batch cb packet own wr
    ∧ trace (send_packet batch n i packet w) =
        trace w ++ own ++ (InSend batch, wr)
          :: reaction cb (respond (socket w) (trace w ++ own ++ [(InSend batch, wr)])).
Proof.
  intros cb. unfold send_packet. fold (has_pre_encoded_string packet).
  fold (fresh_opts packet). fold (callback_of batch n i). fold cb.
  destruct (has_pre_encoded_string packet) eqn:Hpre.
  - pose proof Hpre as Hpre'. unfold has_pre_encoded_string in Hpre'.
    apply andb_true_iff in Hpre' as [Ho Hs].
    apply bool_decide_eq_true in Ho as [o Ho].
    apply typeof_string in Hs as [s Hs].
    rewrite Hs. unfold option_field in Hs. rewrite Ho in Hs.
    eexists [], _. split; [by eapply dispatch_string|].
    apply send_payload_trace.
  - destruct (_canSendPreEncodedFrame packet w) eqn:Hcan.
    + eexists [], _. split; [by apply dispatch_frame|].
      apply sender_sendFrame_trace.
    + eexists [_], _. split; [by apply dispatch_codec|].
      rewrite send_payload_trace. simpl. by rewrite <- !app_assoc.
Qed.

Lemma dispatch_setup w w' batch cb packet own wr :
  perMessageDeflate w' = perMessageDeflate w →
  supportsBinary w' = supportsBinary w →
  socket w' = socket w →
  parser w' = parser w →
  dispatch w' batch cb packet own wr → dispatch w batch cb packet own wr.
Proof.
  intros Hd Hb Hs Hp H.
  assert (Hc : ∀ p, _canSendPreEncodedFrame p w' = _canSendPreEncodedFrame p w).
  { intros p. unfold _canSendPreEncodedFrame. by rewrite Hd, Hs. }
  assert (He : ∀ o d, effective_opts w' o d = effective_opts w o d).
  { intros o d. unfold effective_opts. by rewrite Hd. }
  destruct H as [o s Ho Hs'|Hpre Hcan|Hpre Hcan].
  - rewrite He. by eapply dispatch_string.
  - rewrite Hc in Hcan. by apply dispatch_frame.
  - rewrite Hc in Hcan. rewrite He, Hb, Hp. by apply dispatch_codec.
Qed.

Lemma dispatch_own_filter (f : Entry → bool) w batch cb packet own wr :
  (∀ a p b, f (a, ParserEncodePacket p b) = false) →
  dispatch w batch cb packet own wr → List.filter f own = [].
Proof. intros Hf [| |]; simpl; [done|done|by rewrite Hf]. Qed.

Lemma dispatch_is_write w batch cb packet own wr a :
  dispatch w batch cb packet own wr → is_write (a, wr) = true.
Proof. by intros [| |]. Qed.

(** The iteration of packet [i] inside [send]: its own effects, its write,
    which is the [i]-th write of the batch, and what the adapter's treatment
    of the callback adds. *)
Lemma iteration_effects w packets i packet :
  packets !! i = Some packet →
  let batch := length (batches w) in
  let n := length packets in
  let cb := callback_of batch n i in
  let wi := reaches packets i w in
  let wi' := send_packet batch n i packet wi in
  send packets w = send_loop batch n (S i) (drop (S i) packets) wi'
  ∧ ∃ own wr c,
      dispatch w batch cb packet own wr
      ∧ effects_since wi wi' = own ++ (InSend batch, wr) :: reaction cb c
      ∧ List.filter is_write (effects_since w (send packets w)) !! i
        = Some (InSend batch, wr).
Proof.
  intros Hi batch n cb wi wi'.
  destruct (send_at w packets i packet Hi) as (Hsend & H1 & H2 & H3 & H4 & Hith).
  fold batch n in Hith. fold wi in Hith, H1, H2, H3, H4. fold wi' in Hith.
  split; [exact Hsend|].
  destruct (send_packet_dispatch batch n i packet wi) as (own & wr & Hd & Ht).
  fold wi' cb in Ht.
  apply (dispatch_setup w wi) in Hd; try done.
  eexists own, wr, _. split; [exact Hd|].
  rewrite (effects_since_app _ _ _ Ht) in *.
  split; [reflexivity|].
  apply Hith. rewrite List.filter_app. simpl.
  rewrite (dispatch_own_filter is_write _ _ _ _ _ _ (λ _ _ _, eq_refl) Hd).
  rewrite (dispatch_is_write _ _ _ _ _ _ _ Hd).
  by rewrite reaction_filter.
Qed.

Lemma has_string_true packet o s :
  options packet = Some o → wsPreEncoded o = JsString s →
  has_pre_encoded_string packet = true.
Proof.
  intros Ho Hs. unfold has_pre_encoded_string, option_field. by rewrite Ho, Hs.
Qed.

Lemma has_string_false packet o :
  options packet = Some o → typeof (wsPreEncoded o) ≠ "string" →
  has_pre_encoded_string packet = false.
Proof.
  intros Ho Hs. unfold has_pre_encoded_string, option_field. rewrite Ho. simpl.
  by apply String.eqb_neq.
Qed.

Lemma can_send_frame_true packet o w :
  options packet = Some o →
  wsPreEncodedFrame o ≠ JsUndefined →
  perMessageDeflate w = None →
  typeof (socket_sendFrame_property (socket w)) = "function" →
  _canSendPreEncodedFrame packet w = true.
Proof.
  intros Ho Hf Hd Hs. unfold _canSendPreEncodedFrame, option_field.
  rewrite Ho, Hd, Hs. simpl. by destruct (wsPreEncodedFrame o).
Qed.

Lemma can_send_frame_compressing packet c w :
  perMessageDeflate w = Some c → _canSendPreEncodedFrame packet w = false.
Proof. intros Hd. unfold _canSendPreEncodedFrame. by rewrite Hd. Qed.

(** C5. A packet whose [options.wsPreEncoded] is a string is written by
    handing exactly that string to the adapter's [send]; the codec is not
    called for it and no frame is injected, whatever else its options and the
    transport say. *)
Theorem pre_encoded_string_sent_verbatim :
  ∀ (w : World) (packets : list Packet) (i : nat) (packet : Packet)
    (o : PacketOptions) (s : string),
    packets !! i = Some packet →
    options packet = Some o →
    wsPreEncoded o = JsString s →
    let batch := length (batches w) in
    let n := length packets in
    let cb := callback_of batch n i in
    let wi := reaches packets i w in
    let wi' := send_packet batch n i packet wi in
    send packets w = send_loop batch n (S i) (drop (S i) packets) wi'
    ∧ ∃ opts rest,
        let wr := (InSend batch, SocketSend (JsString s) opts cb) in
        effects_since wi wi' = wr :: rest
        ∧ (∀ x, x ∈ rest → ∃ err, x.1 = InOnSent cb err)
        ∧ count is_encode (effects_since wi wi') = 0
        ∧ count is_sendFrame (effects_since wi wi') = 0
        ∧ List.filter is_write (effects_since w (send packets w)) !! i = Some wr.
Proof.
  intros w packets i packet o s Hi Ho Hs batch n cb wi wi'.
  destruct (iteration_effects w packets i packet Hi)
    as (Hsend & own & wr & c & Hd & He & Hith).
  fold batch n in Hd, He, Hith. fold cb in Hd, He. fold wi in He. fold wi' in He.
  split; [exact Hsend|].
  pose proof (has_string_true _ _ _ Ho Hs) as Hpre.
  destruct Hd as [o' s' Ho' Hs'|Hno _|Hno _]; [|congruence|congruence].
  assert (o' = o) as -> by congruence.
  assert (s' = s) as -> by congruence.
  eexists _, _. cbv zeta. rewrite He. simpl.
  split; [reflexivity|].
  split; [intros x; apply reaction_by_callback|].
  unfold count. simpl. rewrite !reaction_filter by done.
  by repeat split.
Qed.

(** C10. The pre-encoded string goes through the same closure as a
    serialized payload: with compression configured and the string shorter in
    bytes than the threshold, the options handed to the adapter with it say
    [compress: false]. *)
Theorem pre_encoded_string_below_threshold :
  ∀ (w : World) (packets : list Packet) (i : nat) (packet : Packet)
    (o : PacketOptions) (s : string) (c : PerMessageDeflate),
    packets !! i = Some packet →
    options packet = Some o →
    wsPreEncoded o = JsString s →
    perMessageDeflate w = Some c →
    (Buffer_byteLength s < threshold c)%Z →
    let batch := length (batches w) in
    let n := length packets in
    let cb := callback_of batch n i in
    let wi := reaches packets i w in
    let wi' := send_packet batch n i packet wi in
    let wr := (InSend batch,
               SocketSend (JsString s) {| opts_compress := Some false |} cb) in
    send packets w = send_loop batch n (S i) (drop (S i) packets) wi'
    ∧ (∃ rest, effects_since wi wi' = wr :: rest
               ∧ ∀ x, x ∈ rest → ∃ err, x.1 = InOnSent cb err)
    ∧ List.filter is_write (effects_since w (send packets w)) !! i = Some wr.
Proof.
  intros w packets i packet o s c Hi Ho Hs Hc Hlen batch n cb wi wi' wr0.
  destruct (iteration_effects w packets i packet Hi)
    as (Hsend & own & wr & r & Hd & He & Hith).
  fold batch n in Hd, He, Hith. fold cb in Hd, He. fold wi in He. fold wi' in He.
  split; [exact Hsend|].
  pose proof (has_string_true _ _ _ Ho Hs) as Hpre.
  destruct Hd as [o' s' Ho' Hs'|Hno _|Hno _]; [|congruence|congruence].
  assert (o' = o) as -> by congruence.
  assert (s' = s) as -> by congruence.
  assert (Hopts : effective_opts w (fresh_opts packet) (JsString s)
                  = {| opts_compress := Some false |}).
  { unfold effective_opts, below_threshold. rewrite Hc. simpl.
    by apply Z.ltb_lt in Hlen as ->. }
  rewrite Hopts in *. fold wr0 in He, Hith.
  split; [|exact Hith].
  eexists. split; [exact He|]. intros x. apply reaction_by_callback.
Qed.

(** C3. For a packet that carries a pre-encoded frame and no pre-encoded
    string: with compression off and a callable [sendFrame] on the adapter's
    sender, the frame is handed to [sendFrame] and neither the codec nor the
    adapter's [send] is called for the packet; with compression configured,
    the codec is called and its payload goes to the adapter's [send]. *)
Theorem pre_encoded_frame_fast_path :
  ∀ (w : World) (packets : list Packet) (i : nat) (packet : Packet)
    (o : PacketOptions),
    packets !! i = Some packet →
    options packet = Some o →
    typeof (wsPreEncoded o) ≠ "string" →
    wsPreEncodedFrame o ≠ JsUndefined →
    let batch := length (batches w) in
    let n := length packets in
    let cb := callback_of batch n i in
    let wi := reaches packets i w in
    let wi' := send_packet batch n i packet wi in
    send packets w = send_loop batch n (S i) (drop (S i) packets) wi'
    ∧ (perMessageDeflate w = None →
       typeof (socket_sendFrame_property (socket w)) = "function" →
       let wr := (InSend batch, SenderSendFrame (wsPreEncodedFrame o) cb) in
       (∃ rest, effects_since wi wi' = wr :: rest
                ∧ ∀ x, x ∈ rest → ∃ err, x.1 = InOnSent cb err)
       ∧ count is_encode (effects_since wi wi') = 0
       ∧ count is_socket_send (effects_since wi wi') = 0
       ∧ List.filter is_write (effects_since w (send packets w)) !! i = Some wr)
    ∧ (∀ c, perMessageDeflate w = Some c →
       let payload := encodePacket (parser w) packet (supportsBinary w) in
       ∃ opts,
         let wr := (InSend batch, SocketSend payload opts cb) in
         (∃ rest,
            effects_since wi wi' =
              (InSend batch, ParserEncodePacket packet (supportsBinary w))
                :: wr :: rest
            ∧ ∀ x, x ∈ rest → ∃ err, x.1 = InOnSent cb err)
         ∧ count is_sendFrame (effects_since wi wi') = 0
         ∧ List.filter is_write (effects_since w (send packets w)) !! i = Some wr).
Proof.
  intros w packets i packet o Hi Ho Hs Hf batch n cb wi wi'.
  destruct (iteration_effects w packets i packet Hi)
    as (Hsend & own & wr & r & Hd & He & Hith).
  fold batch n in Hd, He, Hith. fold cb in Hd, He. fold wi in He. fold wi' in He.
  split; [exact Hsend|].
  pose proof (has_string_false _ _ Ho Hs) as Hpre.
  split.
  - intros Hoff Hfn wr0.
    pose proof (can_send_frame_true _ _ _ Ho Hf Hoff Hfn) as Hcan.
    destruct Hd as [o' s' Ho' Hs'|_ _|_ Hno]; [|clear Hcan|congruence].
    { rewrite (has_string_true _ _ _ Ho' Hs') in Hpre. discriminate. }
    unfold option_field in *. rewrite Ho in *. fold wr0 in He, Hith.
    rewrite He. unfold count. simpl. rewrite !reaction_filter by done.
    repeat split; [|done].
    eexists. split; [reflexivity|]. intros x. apply reaction_by_callback.
  - intros c Hon payload.
    pose proof (can_send_frame_compressing packet _ _ Hon) as Hcan.
    destruct Hd as [o' s' Ho' Hs'|_ Hyes|_ _]; [|congruence|clear Hcan].
    { rewrite (has_string_true _ _ _ Ho' Hs') in Hpre. discriminate. }
    fold payload in He, Hith. eexists. cbv zeta.
    rewrite He. unfold count. simpl. rewrite !reaction_filter by done.
    repeat split; [|exact Hith].
    eexists. split; [reflexivity|]. intros x. apply reaction_by_callback.
Qed.

(** ** The compression threshold *)

Lemma reaction_not_write cb c (x : Entry) :
  x ∈ reaction cb c → is_write x = false.
Proof.
  destruct c as [|[e|]]; simpl.
  - by intros ?%elem_of_nil.
  - by intros ->%list_elem_of_singleton.
  - destruct (isLast cb); [|by intros ?%elem_of_nil].
    by intros [->|[->|?%elem_of_nil]%elem_of_cons]%elem_of_cons.
Qed.

Lemma dispatch_socket_send w batch cb packet own wr a payload opts cb' :
  dispatch w batch cb packet own wr →
  (a, SocketSend payload opts cb') ∈ own ++ [(InSend batch, wr)] →
  ∃ opts0, opts = effective_opts w opts0 payload.
Proof.
  intros [o s Ho Hs|Hpre Hcan|Hpre Hcan]; simpl.
  - intros [=]%list_elem_of_singleton. subst. by eexists.
  - by intros [=]%list_elem_of_singleton.
  - intros [[=]|[=]%list_elem_of_singleton]%elem_of_cons. subst. by eexists.
Qed.

Lemma effective_opts_setup w w' opts payload :
  same_setup w w' → effective_opts w' opts payload = effective_opts w opts payload.
Proof. intros (Hd & _). unfold effective_opts. by rewrite Hd. Qed.

Lemma send_loop_socket_sends batch n rest :
  ∀ i w,
  ∃ added,
    trace (send_loop batch n i rest w) = trace w ++ added
    ∧ ∀ a payload opts cb,
        (a, SocketSend payload opts cb) ∈ added →
        ∃ opts0, opts = effective_opts w opts0 payload.
Proof.
  induction rest as [|p rest IH]; intros i w; simpl.
  - exists []. rewrite app_nil_r. split; [done|].
    by intros ???? ?%elem_of_nil.
  - destruct (send_packet_dispatch batch n i p w) as (own & wr & Hd & Ht).
    destruct (send_packet_outcome batch n i p w) as (_ & _ & _ & _ & _ & _ & Hs & _).
    destruct (IH (S i) (send_packet batch n i p w)) as (added & Ht' & Hall).
    eexists. split.
    { rewrite Ht', Ht, <- !app_assoc. reflexivity. }
    intros a payload opts cb Hin.
    apply elem_of_app in Hin as [Hin|Hin].
    + eapply dispatch_socket_send; [exact Hd|]. apply elem_of_app. by left.
    + simpl in Hin. apply elem_of_cons in Hin as [Hin|Hin].
      * eapply dispatch_socket_send; [exact Hd|]. apply elem_of_app. right.
        rewrite Hin. by apply list_elem_of_singleton.
      * apply elem_of_app in Hin as [Hin|Hin].
        -- by apply reaction_not_write in Hin.
        -- destruct (Hall _ _ _ _ Hin) as (opts0 & ->).
           exists opts0. by apply effective_opts_setup.
Qed.

Lemma effective_opts_below w c opts payload len :
  perMessageDeflate w = Some c →
  payload_len payload = Some len →
  (len < threshold c)%Z →
  effective_opts w opts payload = {| opts_compress := Some false |}.
Proof.
  intros Hc Hl Hlt. unfold effective_opts, below_threshold. rewrite Hc, Hl.
  by apply Z.ltb_lt in Hlt as ->.
Qed.

(** C4. With compression configured, a payload whose byte length is below
    the threshold reaches the adapter's [send] with [compress: false]: the
    length the code compares is the number of bytes of a string or of a
    [Buffer]; the closure [send] hands the payload on so whatever options it
    was created with, every send made in a batch obeys it, and a serialized
    packet that asked for [compress: true] is sent with [compress: false]. *)
Theorem small_payload_is_not_compressed :
  ∀ (w : World) (c : PerMessageDeflate),
    perMessageDeflate w = Some c →
    (∀ s bytes,
       payload_len (JsString s) = Some (Z.of_nat (String.length s))
       ∧ payload_len (JsBuffer bytes) = Some (Z.of_nat (length bytes)))
    ∧ (∀ a cb opts payload len,
       payload_len payload = Some len →
       (len < threshold c)%Z →
       ∃ rest,
         effects_since w (send_payload a cb opts payload w) =
           (a, SocketSend payload {| opts_compress := Some false |} cb) :: rest
         ∧ ∀ x, x ∈ rest → ∃ err, x.1 = InOnSent cb err)
    ∧ (∀ packets a payload opts cb len,
         (a, SocketSend payload opts cb) ∈ effects_since w (send packets w) →
         payload_len payload = Some len →
         (len < threshold c)%Z →
         opts = {| opts_compress := Some false |})
    ∧ (∀ packets i packet o len,
         packets !! i = Some packet →
         options packet = Some o →
         compress o = Some true →
         typeof (wsPreEncoded o) ≠ "string" →
         let payload := encodePacket (parser w) packet (supportsBinary w) in
         let batch := length (batches w) in
         payload_len payload = Some len →
         (len < threshold c)%Z →
         List.filter is_write (effects_since w (send packets w)) !! i =
         Some (InSend batch,
               SocketSend payload {| opts_compress := Some false |}
                 (callback_of batch (length packets) i))).
Proof.
  intros w c Hc. split; [done|]. split; [|split].
  - intros a cb opts payload len Hl Hlt.
    rewrite (effects_since_app _ _ _ (send_payload_trace a cb opts payload w)).
    rewrite (effective_opts_below _ _ _ _ _ Hc Hl Hlt).
    eexists. split; [reflexivity|]. intros x. apply reaction_by_callback.
  - intros packets a payload opts cb len Hin Hl Hlt.
    unfold send in Hin.
    set (w0 := set_writable _ _ _) in Hin.
    destruct (send_loop_socket_sends (length (batches w)) (length packets)
                packets 0 w0) as (added & Ht & Hall).
    rewrite (effects_since_app w _ ((InSend (length (batches w)), WritableSet false) :: added))
      in Hin.
    2:{ rewrite Ht. subst w0. simpl. by rewrite <- app_assoc. }
    apply elem_of_cons in Hin as [[=]|Hin].
    destruct (Hall _ _ _ _ Hin) as (opts0 & ->).
    by apply (effective_opts_below w0 c _ _ len).
  - intros packets i packet o len Hi Ho Hcomp Hs payload batch Hl Hlt.
    destruct (iteration_effects w packets i packet Hi)
      as (_ & own & wr & r & Hd & _ & Hith).
    rewrite Hith. do 2 f_equal.
    pose proof (has_string_false _ _ Ho Hs) as Hpre.
    pose proof (can_send_frame_compressing packet _ _ Hc) as Hcan.
    destruct Hd as [o' s' Ho' Hs'|_ Hyes|_ _]; [|congruence|].
    { rewrite (has_string_true _ _ _ Ho' Hs') in Hpre. discriminate. }
    fold payload. by rewrite (effective_opts_below _ _ _ _ _ Hc Hl Hlt).
Qed.

(** ** The invariant of the completion callbacks *)

Section counting.
Context (f : Entry → bool).

Lemma count_app (l1 l2 : list Entry) :
  count f (l1 ++ l2) = count f l1 + count f l2.
Proof. unfold count. by rewrite List.filter_app, length_app. Qed.

Lemma count_none (l : list Entry) :
  (∀ x, x ∈ l → f x = false) → count f l = 0.
Proof.
  unfold count. induction l as [|x l IH]; intros H; simpl; [done|].
  rewrite (H x) by apply list_elem_of_here.
  apply IH. intros y Hy. apply H. by apply list_elem_of_further.
Qed.


End counting.

Lemma count_le f g (l : list Entry) :
  (∀ x, x ∈ l → f x = true → g x = true) → count f l ≤ count g l.
Proof.
  unfold count. induction l as [|x l IH]; intros H; simpl; [done|].
  assert (IH' : length (List.filter f l) ≤ length (List.filter g l)).
  { apply IH. intros y Hy. apply H. by apply list_elem_of_further. }
  destruct (f x) eqn:Hf.
  - rewrite (H x (list_elem_of_here _ _) Hf). simpl. lia.
  - destruct (g x); simpl; lia.
Qed.

Lemma quiet_not_fired b x : quiet x = true → fired_final b x = false.
Proof. destruct x as [[] []]; simpl; try done. Qed.

Lemma wf_callback_mono w w' more cb :
  batches w' = batches w ++ more → wf_callback w cb → wf_callback w' cb.
Proof.
  intros Hb (packets & Hl & Hlast). exists packets. split; [|done].
  rewrite Hb. by apply lookup_app_l_Some.
Qed.

Lemma wf_callback_lt w cb : wf_callback w cb → cb_batch cb < length (batches w).
Proof. intros (packets & Hl & _). by eapply lookup_lt_Some. Qed.

(** Entries made outside the callbacks keep the invariant. *)
Lemma invariant_extend w w' added more :
  invariant w →
  trace w' = trace w ++ added →
  (∀ x, x ∈ added → quiet x = true) →
  held w' = held w →
  batches w' = batches w ++ more →
  invariant w' ∧ ∀ b, final_runs b w' = final_runs b w.
Proof.
  intros [Hh Ht Hs Ho] Htr Hq Hheld Hb.
  assert (Hruns : ∀ b, final_runs b w' = final_runs b w).
  { intros b. unfold final_runs. rewrite Htr, Hheld, count_app.
    rewrite (count_none (fired_final b) added); [lia|].
    intros x Hx. apply quiet_not_fired. by apply Hq. }
  split; [|exact Hruns]. split.
  - intros cb Hcb. rewrite Hheld in Hcb.
    eapply wf_callback_mono; [exact Hb|]. by apply Hh.
  - intros cb err e Hin. rewrite Htr in Hin.
    apply elem_of_app in Hin as [Hin|Hin].
    + eapply wf_callback_mono; [exact Hb|]. by eapply Ht.
    + by apply Hq in Hin.
  - intros a e Hin He. rewrite Htr in Hin.
    apply elem_of_app in Hin as [Hin|Hin]; [by eapply Hs|].
    apply Hq in Hin. destruct a, He as [->|[name ->]]; done.
  - intros b. rewrite Hruns. apply Ho.
Qed.

Lemma final_runs_fresh w b :
  invariant w → length (batches w) ≤ b → final_runs b w = 0.
Proof.
  intros [Hh Ht _ _] Hb. unfold final_runs.
  assert (Hcb : ∀ cb, wf_callback w cb → held_final b cb = false).
  { intros cb Hwf%wf_callback_lt. unfold held_final.
    apply andb_false_iff. right. apply Nat.eqb_neq. lia. }
  rewrite count_none.
  - replace (List.filter (held_final b) (held w)) with (@nil Callback); [done|].
    symmetry. induction (held w) as [|cb l IH]; [done|]. simpl.
    rewrite Hcb by (apply Hh; apply list_elem_of_here).
    apply IH. intros cb' Hcb'. apply Hh. by apply list_elem_of_further.
  - intros [a e] Hin. destruct a as [|cb err| |]; try done.
    specialize (Hcb cb (Ht cb err e Hin)). by destruct e.
Qed.

Lemma final_runs_onSent b cb err w :
  final_runs b (onSent cb err w) =
  final_runs b w + (if held_final b cb then 1 else 0).
Proof.
  unfold final_runs. rewrite onSent_trace, onSent_held, count_app.
  assert (count (fired_final b) (onSent_effects cb err)
          = if held_final b cb then 1 else 0) as ->; [|lia].
  unfold onSent_effects, count. destruct err as [e|]; simpl.
  - by destruct (held_final b cb).
  - unfold held_final.
    destruct (isLast cb) eqn:Hl; simpl; [|done].
    unfold held_final. rewrite Hl. simpl.
    by destruct (cb_batch cb =? b).
Qed.

Lemma invariant_onSent cb err w : accepts w cb → invariant (onSent cb err w).
Proof.
  intros (Hh & Ht & Hs & Hwf & Ho).
  pose proof (onSent_setup cb err w) as (_&_&_&_&_&Hb).
  assert (Hmono : ∀ cb', wf_callback w cb' → wf_callback (onSent cb err w) cb').
  { intros cb'. apply (wf_callback_mono _ _ []). by rewrite Hb, app_nil_r. }
  split.
  - intros cb' Hin. rewrite onSent_held in Hin. by apply Hmono, Hh.
  - intros cb' err' e Hin. rewrite onSent_trace in Hin.
    apply elem_of_app in Hin as [Hin|Hin]; [by eapply Hmono, Ht|].
    apply (reaction_by_callback cb (Immediately err)) in Hin as (err'' & Heq).
    simpl in Heq. injection Heq as -> _. by apply Hmono.
  - intros a e Hin He. rewrite onSent_trace in Hin.
    apply elem_of_app in Hin as [Hin|Hin]; [by eapply Hs|].
    unfold onSent_effects in Hin. destruct err as [e'|].
    + apply list_elem_of_singleton in Hin. injection Hin as -> ->.
      by destruct He as [|[? ?]].
    + destruct (isLast cb) eqn:Hl; [|by apply elem_of_nil in Hin].
      apply elem_of_cons in Hin as [Hin|Hin]; [injection Hin as -> _; eauto|].
      apply list_elem_of_singleton in Hin. injection Hin as -> _. eauto.
  - intros b. rewrite final_runs_onSent. apply Ho.
Qed.

Lemma final_runs_adapter_takes b cb w :
  final_runs b (adapter_takes cb w) =
  final_runs b w + (if held_final b cb then 1 else 0).
Proof.
  unfold adapter_takes. destruct (respond (socket w) (trace w)).
  - unfold final_runs. simpl. rewrite List.filter_app, length_app. simpl.
    destruct (held_final b cb); simpl; lia.
  - apply final_runs_onSent.
Qed.

Lemma invariant_adapter_takes cb w : accepts w cb → invariant (adapter_takes cb w).
Proof.
  intros Ha. unfold adapter_takes.
  destruct (respond (socket w) (trace w)) eqn:Hr; [|by apply invariant_onSent].
  destruct Ha as (Hh & Ht & Hs & Hwf & Ho). split; simpl; try done.
  - intros cb' [Hin | ->%list_elem_of_singleton]%elem_of_app; [by apply Hh|done].
  - intros b. specialize (Ho b).
    pose proof (final_runs_adapter_takes b cb w) as Hf.
    unfold adapter_takes in Hf. rewrite Hr in Hf. rewrite Hf. exact Ho.
Qed.

Lemma carries_quiet w cb packet batch wr :
  carries w cb packet wr → quiet (InSend batch, wr) = true.
Proof. intros [(?&?&?&?&?&->)|[(?&?&->)|(?&->)]]; reflexivity. Qed.

Lemma invariant_send_packet batch n i packet packets w :
  invariant w →
  batches w !! batch = Some packets →
  n = length packets →
  final_runs batch w = 0 →
  invariant (send_packet batch n i packet w)
  ∧ final_runs batch (send_packet batch n i packet w)
    = (if Nat.eqb (i + 1) n then 1 else 0)
  ∧ batches (send_packet batch n i packet w) = batches w.
Proof.
  intros Hinv Hb -> Hzero.
  destruct (send_packet_inv batch (length packets) i packet w)
    as (own & wr & w1 & -> & Ht & Hh & _ & Hs & Hc & Hown).
  set (cb := callback_of batch (length packets) i).
  destruct Hs as (_&_&_&_&_&Hbat).
  destruct (invariant_extend w w1 (own ++ [(InSend batch, wr)]) [] Hinv)
    as [[Hh1 Ht1 Hs1 Ho1] Hruns]; try done.
  { intros x [Hx|Hx]%elem_of_app.
    - destruct Hown as [->| ->]; [by apply elem_of_nil in Hx|].
      by apply list_elem_of_singleton in Hx as ->.
    - apply list_elem_of_singleton in Hx as ->. by eapply carries_quiet. }
  { by rewrite app_nil_r. }
  assert (Hheld : ∀ b, held_final b cb = true → b = batch ∧ Nat.eqb (i + 1) (length packets) = true).
  { intros b [H1 H2%Nat.eqb_eq]%andb_true_iff. simpl in *. by subst. }
  assert (Ha : accepts w1 cb).
  { repeat split; try done.
    - exists packets. rewrite Hbat. by split.
    - intros b. destruct (held_final b cb) eqn:Hf; [|rewrite Nat.add_0_r; apply Ho1].
      apply Hheld in Hf as [-> _]. rewrite Hruns, Hzero. lia. }
  split; [by apply invariant_adapter_takes|]. split.
  - rewrite final_runs_adapter_takes, Hruns, Hzero. simpl.
    unfold held_final. simpl. rewrite Nat.eqb_refl.
    by destruct (i + 1 =? length packets).
  - pose proof (adapter_takes_setup cb w1) as (_&_&_&_&_&Hbat').
    by rewrite Hbat', Hbat.
Qed.

Lemma send_loop_invariant batch n packets rest :
  ∀ i w,
    i + length rest = n →
    n = length packets →
    batches w !! batch = Some packets →
    invariant w →
    (rest ≠ [] → final_runs batch w = 0) →
    invariant (send_loop batch n i rest w).
Proof.
  induction rest as [|p rest IH]; intros i w Hi Hn Hb Hinv Hzero; simpl; [done|].
  destruct (invariant_send_packet batch n i p packets w Hinv Hb Hn)
    as (Hinv' & Hruns & Hbat); [by apply Hzero|].
  apply IH; try done.
  - simpl in Hi. lia.
  - by rewrite Hbat.
  - intros Hne. rewrite Hruns.
    destruct rest; [done|]. simpl in Hi.
    destruct (i + 1 =? n) eqn:Heq; [|done].
    apply Nat.eqb_eq in Heq. lia.
Qed.

Lemma invariant_send packets w : invariant w → invariant (send packets w).
Proof.
  intros Hinv. unfold send.
  set (batch := length (batches w)).
  set (w0 := set_writable (InSend batch) false
               (with_batches (batches w ++ [packets]) w)).
  destruct (invariant_extend w w0 [(InSend batch, WritableSet false)] [packets] Hinv)
    as [Hinv0 Hruns]; try done.
  { by intros x ->%list_elem_of_singleton. }
  assert (Hb : batches w0 !! batch = Some packets).
  { subst w0 batch. simpl. by rewrite lookup_app_r, Nat.sub_diag. }
  apply (send_loop_invariant batch _ packets); try done.
  intros _. rewrite Hruns. by apply final_runs_fresh.
Qed.

Lemma filter_delete (f : Callback → bool) l k x :
  l !! k = Some x →
  length (List.filter f (delete k l)) + (if f x then 1 else 0)
  = length (List.filter f l).
Proof.
  intros Hk. rewrite <- (take_drop_middle l k x Hk) at 2.
  rewrite delete_take_drop, !List.filter_app, !length_app. simpl.
  destruct (f x); simpl; lia.
Qed.

Lemma elem_of_delete (l : list Callback) k x : x ∈ delete k l → x ∈ l.
Proof. intros H. eapply elem_of_sublist; [exact H|apply sublist_delete]. Qed.

Lemma accepts_release w k cb :
  invariant w → held w !! k = Some cb →
  accepts (with_held (delete k (held w)) w) cb.
Proof.
  intros [Hh Ht Hs Ho] Hk. repeat split; simpl; try done.
  - intros cb' Hin%elem_of_delete. exact (Hh cb' Hin).
  - exact (Hh cb (list_elem_of_lookup_2 _ _ _ Hk)).
  - intros b. specialize (Ho b). unfold final_runs in *. simpl.
    pose proof (filter_delete (held_final b) _ _ _ Hk). lia.
Qed.

Lemma invariant_quiet w w' added :
  invariant w →
  trace w' = trace w ++ added →
  (∀ x, x ∈ added → quiet x = true) →
  held w' = held w →
  batches w' = batches w →
  invariant w'.
Proof.
  intros Hinv Ht Hq Hh Hb.
  eapply proj1, (invariant_extend w w' added []); try done.
  by rewrite app_nil_r.
Qed.

Lemma doClose_trace fn w :
  trace (doClose fn w) =
  trace w ++ (InDoClose, SocketCloseCall)
    :: match fn with Some f => [(InDoClose, FnCall f)] | None => [] end.
Proof. destruct fn; simpl; [|done]. by rewrite <- app_assoc. Qed.

Lemma invariant_step a w w' : invariant w → step a w = Some w' → invariant w'.
Proof.
  intros Hinv Hstep. destruct a as [packets|fn|c|k err|payload isBinary| |err];
    simpl in Hstep.
  - injection Hstep as <-. by apply invariant_send.
  - injection Hstep as <-.
    eapply invariant_quiet; [exact Hinv|apply doClose_trace| | |].
    + intros x. destruct fn.
      * by intros [->| ->%list_elem_of_singleton]%elem_of_cons.
      * by intros ->%list_elem_of_singleton.
    + by destruct fn.
    + by destruct fn.
  - injection Hstep as <-.
    eapply (invariant_quiet w _ []); [exact Hinv|by rewrite app_nil_r| |done|done].
    by intros x ?%elem_of_nil.
  - destruct (held w !! k) as [cb|] eqn:Hk; [|done]. injection Hstep as <-.
    by apply invariant_onSent, accepts_release.
  - injection Hstep as <-.
    eapply (invariant_quiet w _ [_]); [exact Hinv|reflexivity| |done|done].
    by intros x ->%list_elem_of_singleton.
  - injection Hstep as <-. unfold on_close.
    destruct (closeListener w); [|done].
    eapply (invariant_quiet w _ [_]); [exact Hinv|reflexivity| |done|done].
    by intros x ->%list_elem_of_singleton.
  - injection Hstep as <-.
    eapply (invariant_quiet w _ [_]); [exact Hinv|reflexivity| |done|done].
    by intros x ->%list_elem_of_singleton.
Qed.

Lemma invariant_new req base w : new_WebSocket req base = Some w → invariant w.
Proof.
  unfold new_WebSocket. destruct (websocket req); [|done].
  intros [= <-]. split; simpl; try done.
  - by intros cb ?%elem_of_nil.
  - by intros ??? ?%elem_of_nil.
  - by intros ?? ?%elem_of_nil.
  - intros b. unfold final_runs, count. simpl. lia.
Qed.

Lemma runs_invariant policy w : runs policy w → invariant w.
Proof.
  induction 1 as [req base w Hnew|a w w' _ IH _ Hstep].
  - by eapply invariant_new.
  - by eapply invariant_step.
Qed.

(** ** The drain notification *)

Lemma final_of_wf w cb :
  wf_callback w cb → isLast cb = true → final_callback w cb.
Proof.
  intros (packets & Hb & Hl) Ht. exists packets. split; [done|].
  rewrite Ht in Hl. symmetry in Hl. by apply Nat.eqb_eq in Hl.
Qed.


Lemma drains_bounded w b : invariant w → count (is_drain_of b) (trace w) ≤ 1.
Proof.
  intros Hinv. pose proof (inv_once w Hinv b) as Ho. unfold final_runs in Ho.
  assert (count (is_drain_of b) (trace w) ≤ count (fired_final b) (trace w)); [|lia].
  apply count_le. intros [a e] Hin [Hd Hb%bool_decide_eq_true]%andb_true_iff.
  destruct e; try done.
  destruct (inv_source w Hinv a (Emit name) Hin) as (cb & -> & Hl); [eauto|].
  simpl in *. injection Hb as <-. unfold held_final. by rewrite Hl, Nat.eqb_refl.
Qed.

(** C6. In every world a transport can reach, no batch has ["drain"]
    emitted for it more than once, and every ["drain"] in the trace was
    emitted by the callback of the final packet of a batch, run without an
    error. *)
Theorem drain_once_after_final_success :
  ∀ w : World,
    reachable w →
    (∀ b, count (is_drain_of b) (trace w) ≤ 1)
    ∧ (∀ a, (a, Emit "drain") ∈ trace w →
            ∃ cb, a = InOnSent cb None ∧ final_callback w cb).
Proof.
  intros w Hinv%runs_invariant. split.
  - intros b. by apply drains_bounded.
  - intros a Hin.
    destruct (inv_source w Hinv a _ Hin) as (cb & -> & Hl); [eauto|].
    exists cb. split; [done|].
    apply final_of_wf; [|done]. by eapply inv_trace.
Qed.

Example demo_world_new : new_WebSocket demo_request demo_base = Some demo_world.
Proof. reflexivity. Qed.

Example failing_world_new :
  new_WebSocket failing_request demo_base = Some failing_world.
Proof. reflexivity. Qed.

Lemma drain_once_after_final_success_witness :
  reachable demo_drained
  ∧ (∀ b, count (is_drain_of b) (trace demo_drained) ≤ 1)
  ∧ (∀ a, (a, Emit "drain") ∈ trace demo_drained →
          ∃ cb, a = InOnSent cb None ∧ final_callback demo_drained cb).
Proof.
  assert (H : reachable demo_drained).
  { eapply (runs_step _ (AdapterCompletes 1 None) demo_sent); [|exact I|reflexivity].
    eapply (runs_step _ (CallSend _) demo_world); [|exact I|reflexivity].
    exact (runs_new _ demo_request demo_base demo_world eq_refl). }
  split; [exact H|].
  exact (drain_once_after_final_success demo_drained H).
Defined.

(** ** Errors of completion callbacks *)

Lemma app_eq_cons_split {A} (a b l1 l2 : list A) (x : A) :
  a ++ b = l1 ++ x :: l2 →
  (∃ l2', a = l1 ++ x :: l2' ∧ l2 = l2' ++ b)
  ∨ (∃ l1', b = l1' ++ x :: l2 ∧ l1 = a ++ l1').
Proof.
  revert l1. induction a as [|y a IH]; intros l1 H; simpl in *.
  - right. by exists l1.
  - destruct l1 as [|z l1]; simpl in *.
    + injection H as -> <-. left. by exists a.
    + injection H as -> H. destruct (IH l1 H) as [(l2' & -> & ->)|(l1' & -> & ->)].
      * left. by exists l2'.
      * right. by exists l1'.
Qed.

(** An error report inside the reaction to a write is all of the reaction. *)
Lemma reaction_error cb c l1 l2 cb' e m d :
  reaction cb c = l1 ++ (InOnSent cb' (Some e), OnError m d) :: l2 →
  l1 = [] ∧ l2 = [] ∧ cb' = cb.
Proof.
  destruct c as [|[e'|]]; simpl.
  - by destruct l1.
  - destruct l1 as [|? [|]]; [|done|done]. by intros [= <- <- <- <- <-].
  - destruct (isLast cb); [|by destruct l1].
    destruct l1 as [|? [|? [|]]]; done.
Qed.

Lemma dispatch_by_send w batch cb packet own wr (x : Entry) :
  dispatch w batch cb packet own wr →
  x ∈ own ++ [(InSend batch, wr)] → x.1 = InSend batch.
Proof.
  intros [o s Ho Hs|Hpre Hcan|Hpre Hcan]; simpl.
  - by intros ->%list_elem_of_singleton.
  - by intros ->%list_elem_of_singleton.
  - by intros [->| ->%list_elem_of_singleton]%elem_of_cons.
Qed.

(** After the error report of the callback of packet [j], made while the
    loop runs, the loop still writes all the packets after [j]. *)
Lemma send_loop_after_error batch n rest :
  ∀ i w added l1 cb e m d l2,
    trace (send_loop batch n i rest w) = trace w ++ added →
    added = l1 ++ (InOnSent cb (Some e), OnError m d) :: l2 →
    cb_batch cb = batch
    ∧ count is_write l2 = (i + length rest) - (cb_index cb + 1).
Proof.
  induction rest as [|p rest IH]; intros i w added l1 cb e m d l2 Ht Hsplit;
    simpl in Ht.
  - apply (f_equal length) in Ht. rewrite length_app in Ht.
    assert (added = []) as -> by (destruct added; simpl in *; [done|lia]).
    by destruct l1.
  - destruct (send_packet_dispatch batch n i p w) as (own & wr & Hd & Hp).
    destruct (send_loop_writes batch n rest (S i) (send_packet batch n i p w))
      as (added' & Ht' & _ & Hlen & _).
    set (cbi := callback_of batch n i) in *.
    set (c := respond _ _) in Hp.
    assert (Hadd : added = (own ++ [(InSend batch, wr)]) ++ reaction cbi c ++ added').
    { rewrite Ht', Hp in Ht. rewrite <- !app_assoc in Ht.
      apply app_inv_head in Ht. rewrite <- Ht. by rewrite <- !app_assoc. }
    rewrite Hsplit in Hadd. symmetry in Hadd.
    apply app_eq_cons_split in Hadd as [(l2' & Hown & _)|(l1' & Hadd & _)].
    { assert (Hx : (InOnSent cb (Some e), OnError m d) ∈ own ++ [(InSend batch, wr)]).
      { rewrite Hown. apply elem_of_app. right. apply list_elem_of_here. }
      by apply (dispatch_by_send _ _ _ _ _ _ _ Hd) in Hx. }
    apply app_eq_cons_split in Hadd as [(l2' & Hr & ->)|(l1'' & Hadd & _)].
    + apply reaction_error in Hr as (-> & -> & ->). simpl.
      split; [done|]. fold (count is_write added'). unfold count. rewrite Hlen.
      simpl. lia.
    + destruct (IH (S i) _ added' l1'' cb e m d l2 Ht' Hadd) as [Hb Hc].
      split; [done|]. rewrite Hc. simpl. lia.
Qed.

(** C9. The error of a completion callback, of whatever packet, is handed
    to the error path and nothing else happens; reported while [send] is
    still dispatching, it leaves the packets after it to be written all the
    same; and the callback of the final packet, run without an error, sets
    [writable] and emits ["drain"] whatever was reported before. *)
Theorem callback_error_leaves_batch_running :
  ∀ (w : World) (packets : list Packet),
    (∀ cb e u,
       trace (onSent cb (Some e) u) =
         trace u ++ [(InOnSent cb (Some e),
                      OnError (JsString "write error") (JsString (stack e)))]
       ∧ writable (onSent cb (Some e) u) = writable u
       ∧ held (onSent cb (Some e) u) = held u)
    ∧ (∀ l1 cb e m d l2,
         effects_since w (send packets w) =
           l1 ++ (InOnSent cb (Some e), OnError m d) :: l2 →
         cb_batch cb = length (batches w)
         ∧ count is_write l2 = length packets - (cb_index cb + 1))
    ∧ (∀ cb u,
         isLast cb = true →
         trace (onSent cb None u) =
           trace u ++ [(InOnSent cb None, WritableSet true);
                       (InOnSent cb None, Emit "drain")]
         ∧ writable (onSent cb None u) = true)
    ∧ (∀ u k cb,
         held u !! k = Some cb →
         isLast cb = true →
         ∃ u', step (AdapterCompletes k None) u = Some u'
               ∧ trace u' = trace u ++ [(InOnSent cb None, WritableSet true);
                                        (InOnSent cb None, Emit "drain")]
               ∧ writable u' = true).
Proof.
  intros w packets.
  assert (Hlast : ∀ cb u,
         isLast cb = true →
         trace (onSent cb None u) =
           trace u ++ [(InOnSent cb None, WritableSet true);
                       (InOnSent cb None, Emit "drain")]
         ∧ writable (onSent cb None u) = true).
  { intros cb u Hl. rewrite onSent_trace, onSent_writable.
    unfold onSent_effects. by rewrite Hl. }
  split; [|split; [|split]].
  - intros cb e u. by rewrite onSent_trace, onSent_writable, onSent_held.
  - intros l1 cb e m d l2 Heff. unfold send in Heff.
    set (batch := length (batches w)) in *.
    set (w0 := set_writable _ _ _) in Heff.
    destruct (send_loop_writes batch (length packets) packets 0 w0)
      as (added & Ht & _).
    rewrite (effects_since_app w _ ((InSend batch, WritableSet false) :: added))
      in Heff.
    2:{ rewrite Ht. subst w0. simpl. by rewrite <- app_assoc. }
    destruct l1 as [|x l1]; [done|]. injection Heff as _ Heff.
    by apply (send_loop_after_error batch (length packets) packets 0 w0 added
                l1 cb e m d l2).
  - exact Hlast.
  - intros u k cb Hk Hl. unfold step. rewrite Hk. eexists. split; [done|].
    exact (Hlast cb (with_held (delete k (held u)) u) Hl).
Qed.

(** ** The flag [writable] under cooperative use *)

Lemma send_loop_coop batch n rest :
  ∀ i w,
    i + length rest = n →
    length (batches w) = batch + 1 →
    rest ≠ [] →
    writable w = false →
    (∀ cb, cb ∈ held w → isLast cb = false) →
    coop_invariant (send_loop batch n i rest w).
Proof.
  induction rest as [|p rest IH]; intros i w Hi Hb Hne Hw Hh; [done|].
  cbn [send_loop].
  destruct (send_packet_outcome batch n i p w)
    as (own & wr & c & Ht & Hheld & Hwr & Hs & _).
  assert (Hlast : isLast (callback_of batch n i) = Nat.eqb (i + 1) n) by done.
  assert (Hcbb : cb_batch (callback_of batch n i) = batch) by done.
  remember (callback_of batch n i) as cb eqn:Hcb. clear Hcb.
  remember (send_packet batch n i p w) as w' eqn:Hw'. clear Hw'.
  destruct Hs as (_&_&_&_&_&Hbat).
  destruct rest as [|q rest].
  - (* the final packet *)
    assert (Hl : isLast cb = true).
    { rewrite Hlast. apply Nat.eqb_eq. simpl in Hi. lia. }
    cbn [send_loop]. split.
    + intros cb' Hin Hl'. rewrite Hheld in Hin.
      apply elem_of_app in Hin as [Hin|Hin].
      { rewrite (Hh cb' Hin) in Hl'. done. }
      destruct c as [|err]; [|by apply elem_of_nil in Hin].
      apply list_elem_of_singleton in Hin as ->.
      rewrite Hbat, Hb, Hwr, Hcbb. by split.
    + rewrite Hwr. destruct c as [|[e|]]; [congruence|congruence|].
      intros _. right. exists cb. rewrite Hbat, Hb, Hcbb.
      split; [done|]. split; [done|]. rewrite Ht.
      unfold reaction, onSent_effects. rewrite Hl.
      split; (apply elem_of_app; right; apply elem_of_app; right).
      * apply list_elem_of_further, list_elem_of_here.
      * apply list_elem_of_further, list_elem_of_further, list_elem_of_here.
  - (* a packet before the final one *)
    assert (Hl : isLast cb = false).
    { rewrite Hlast. apply Nat.eqb_neq. simpl in Hi. lia. }
    apply IH; try done.
    + simpl in *. lia.
    + by rewrite Hbat.
    + rewrite Hwr, Hl. by destruct c as [|[e|]].
    + intros cb' Hin. rewrite Hheld in Hin.
      apply elem_of_app in Hin as [Hin|Hin]; [by apply Hh|].
      destruct c as [|err]; [|by apply elem_of_nil in Hin].
      by apply list_elem_of_singleton in Hin as ->.
Qed.

Lemma coop_invariant_send packets w :
  coop_invariant w → writable w = true → coop_invariant (send packets w).
Proof.
  intros [Hh Hw] Hup. unfold send.
  set (batch := length (batches w)).
  set (w0 := set_writable (InSend batch) false
               (with_batches (batches w ++ [packets]) w)).
  assert (Hheld : ∀ cb, cb ∈ held w0 → isLast cb = false).
  { intros cb Hin. destruct (isLast cb) eqn:Hl; [|done].
    destruct (Hh cb Hin Hl) as [_ Hdown]. congruence. }
  destruct packets as [|p packets].
  - simpl. split; [|done].
    intros cb Hin Hl. by rewrite (Hheld cb Hin) in Hl.
  - apply send_loop_coop; try done.
    subst w0 batch. simpl. rewrite length_app. simpl. lia.
Qed.

(** Entries added to the trace, the rest unchanged, keep it. *)
Lemma coop_invariant_grow w w' added :
  coop_invariant w →
  trace w' = trace w ++ added →
  held w' = held w →
  batches w' = batches w →
  writable w' = writable w →
  coop_invariant w'.
Proof.
  intros [Hh Hw] Ht Hheld Hb Hwr. split.
  - rewrite Hheld, Hb, Hwr. exact Hh.
  - rewrite Hwr, Hb, Ht. intros Hup.
    destruct (Hw Hup) as [?|(cb & ? & ? & H1 & H2)]; [by left|].
    right. exists cb. repeat split; try done; apply elem_of_app; by left.
Qed.

Lemma filter_nil_not_elem (f : Callback → bool) l x :
  length (List.filter f l) = 0 → x ∈ l → f x = false.
Proof.
  intros Hlen Hin. apply list_elem_of_split in Hin as (l1 & l2 & ->).
  rewrite List.filter_app, length_app in Hlen. simpl in Hlen.
  destruct (f x); simpl in *; [lia|done].
Qed.

Lemma coop_invariant_step a w w' :
  invariant w → coop_invariant w → honours_writable a w →
  step a w = Some w' → coop_invariant w'.
Proof.
  intros Hinv Hc Hpol Hstep.
  destruct a as [packets|fn|c|k err|payload isBinary| |err]; simpl in Hstep.
  - injection Hstep as <-. by apply coop_invariant_send.
  - injection Hstep as <-.
    eapply coop_invariant_grow; [exact Hc|apply doClose_trace|..];
      by destruct fn.
  - injection Hstep as <-.
    eapply (coop_invariant_grow w _ []); [exact Hc|by rewrite app_nil_r|..]; done.
  - destruct (held w !! k) as [cb|] eqn:Hk; [|done]. injection Hstep as <-.
    set (w1 := with_held (delete k (held w)) w).
    assert (Hc1 : coop_invariant w1).
    { destruct Hc as [Hh Hw]. split; [|exact Hw].
      intros cb' Hin%elem_of_delete. exact (Hh cb' Hin). }
    destruct err as [e|].
    { eapply coop_invariant_grow; [exact Hc1|apply onSent_trace|..].
      - apply onSent_held.
      - by destruct (onSent_setup cb (Some e) w1) as (_&_&_&_&_&?).
      - by rewrite onSent_writable. }
    destruct (isLast cb) eqn:Hl.
    2:{ unfold onSent. by rewrite Hl. }
    destruct Hc as [Hh Hw].
    destruct (Hh cb (list_elem_of_lookup_2 _ _ _ Hk) Hl) as [Hb Hdown].
    pose proof (onSent_setup cb None w1) as (_&_&_&_&_&Hbat).
    split.
    + rewrite onSent_held. intros cb' Hin Hl'. exfalso.
      pose proof (inv_once w Hinv (cb_batch cb)) as Ho. unfold final_runs in Ho.
      pose proof (filter_delete (held_final (cb_batch cb)) _ _ _ Hk) as Hf.
      unfold held_final at 2 in Hf. rewrite Hl, Nat.eqb_refl in Hf. simpl in Hf.
      assert (Hz : length (List.filter (held_final (cb_batch cb))
                             (delete k (held w))) = 0) by lia.
      pose proof (filter_nil_not_elem _ _ _ Hz Hin) as Hnot.
      destruct (Hh cb' (elem_of_delete _ _ _ Hin) Hl') as [Hb' _].
      unfold held_final in Hnot. rewrite Hl' in Hnot. simpl in Hnot.
      apply Nat.eqb_neq in Hnot. lia.
    + intros _. right. exists cb. rewrite Hbat, onSent_trace.
      unfold onSent_effects. rewrite Hl.
      split; [exact Hb|]. split; [done|].
      split; (apply elem_of_app; right).
      * apply list_elem_of_here.
      * apply list_elem_of_further, list_elem_of_here.
  - injection Hstep as <-.
    by eapply (coop_invariant_grow w _ [_]); [exact Hc|reflexivity|..].
  - injection Hstep as <-. unfold on_close.
    destruct (closeListener w); [|done].
    by eapply (coop_invariant_grow w _ [_]); [exact Hc|reflexivity|..].
  - injection Hstep as <-.
    by eapply (coop_invariant_grow w _ [_]); [exact Hc|reflexivity|..].
Qed.

Lemma cooperative_invariants w : cooperative w → invariant w ∧ coop_invariant w.
Proof.
  induction 1 as [req base w Hnew|a w w' _ [IH1 IH2] Hpol Hstep].
  - split; [by eapply invariant_new|].
    unfold new_WebSocket in Hnew. destruct (websocket req); [|done].
    injection Hnew as <-. split; simpl.
    + by intros cb ?%elem_of_nil.
    + by left.
  - split; [by eapply invariant_step|by eapply coop_invariant_step].
Qed.

Lemma send_trace packets w :
  ∃ later,
    trace (send packets w) =
    trace w ++ (InSend (length (batches w)), WritableSet false) :: later.
Proof.
  unfold send. set (w0 := set_writable _ _ _).
  destruct (send_loop_writes (length (batches w)) (length packets) packets 0 w0)
    as (added & Ht & _).
  exists added. rewrite Ht. subst w0. simpl. by rewrite <- app_assoc.
Qed.


(** ** The properties on concrete transports *)


Lemma send_writes_each_packet_in_order_witness :
  let packets := [plain_packet; string_packet; frame_packet] in
  let writes := List.filter is_write (effects_since demo_world (send packets demo_world)) in
  length writes = 3
  ∧ packets !! 1 = Some string_packet
  ∧ ∃ wr, writes !! 1 = Some (InSend 0, wr)
          ∧ carries demo_world (callback_of 0 3 1) string_packet wr.
Proof.
  intros packets writes.
  destruct (send_writes_each_packet_in_order demo_world packets) as [Hn Hall].
  split; [exact Hn|]. split; [reflexivity|].
  exact (Hall 1 string_packet eq_refl).
Defined.

Lemma pre_encoded_string_sent_verbatim_witness :
  let packets := [plain_packet; string_packet] in
  let wi := reaches packets 1 demo_world in
  let wi' := send_packet 0 2 1 string_packet wi in
  packets !! 1 = Some string_packet
  ∧ send packets demo_world = send_loop 0 2 2 [] wi'
  ∧ ∃ opts rest,
      effects_since wi wi' =
        (InSend 0, SocketSend (JsString "X") opts (callback_of 0 2 1)) :: rest
      ∧ count is_encode (effects_since wi wi') = 0
      ∧ count is_sendFrame (effects_since wi wi') = 0.
Proof.
  intros packets wi wi'.
  destruct (pre_encoded_string_sent_verbatim demo_world packets 1 string_packet
              _ "X" eq_refl eq_refl eq_refl)
    as (Hsend & opts & rest & Heff & _ & Henc & Hframe & _).
  split; [reflexivity|]. split; [exact Hsend|].
  exists opts, rest. by repeat split.
Defined.

Lemma pre_encoded_string_below_threshold_witness :
  let packets := [string_packet] in
  perMessageDeflate compressing_world = Some {| threshold := 1024 |}
  ∧ (Buffer_byteLength "X" < 1024)%Z
  ∧ List.filter is_write
      (effects_since compressing_world (send packets compressing_world)) !! 0
    = Some (InSend 0,
            SocketSend (JsString "X") {| opts_compress := Some false |}
              (callback_of 0 1 0)).
Proof.
  intros packets.
  assert (Hlt : (Buffer_byteLength "X" < threshold {| threshold := 1024 |})%Z)
    by (vm_compute; reflexivity).
  destruct (pre_encoded_string_below_threshold compressing_world packets 0
              string_packet _ "X" {| threshold := 1024 |}
              eq_refl eq_refl eq_refl eq_refl Hlt)
    as (_ & _ & Hith).
  split; [reflexivity|]. split; [exact Hlt|exact Hith].
Defined.

Lemma pre_encoded_frame_fast_path_witness :
  let packets := [plain_packet; frame_packet] in
  let frame := JsArray [JsBuffer []] in
  packets !! 1 = Some frame_packet
  ∧ perMessageDeflate demo_world = None
  ∧ typeof (socket_sendFrame_property (socket demo_world)) = "function"
  ∧ List.filter is_write (effects_since demo_world (send packets demo_world)) !! 1
    = Some (InSend 0, SenderSendFrame frame (callback_of 0 2 1))
  ∧ count is_encode
      (effects_since (reaches packets 1 demo_world)
         (send_packet 0 2 1 frame_packet (reaches packets 1 demo_world))) = 0
  ∧ perMessageDeflate compressing_world = Some {| threshold := 1024 |}
  ∧ ∃ opts,
      List.filter is_write
        (effects_since compressing_world (send packets compressing_world)) !! 1
      = Some (InSend 0, SocketSend (JsString "4hello") opts (callback_of 0 2 1)).
Proof.
  intros packets frame.
  assert (Hs : typeof JsUndefined ≠ "string") by discriminate.
  assert (Hf : frame ≠ JsUndefined) by discriminate.
  destruct (pre_encoded_frame_fast_path demo_world packets 1 frame_packet
              _ eq_refl eq_refl Hs Hf) as (_ & Hfast & _).
  destruct (Hfast eq_refl eq_refl) as (_ & Henc & _ & Hith).
  destruct (pre_encoded_frame_fast_path compressing_world packets 1 frame_packet
              _ eq_refl eq_refl Hs Hf) as (_ & _ & Hslow).
  destruct (Hslow {| threshold := 1024 |} eq_refl) as (opts & _ & _ & Hith').
  split; [reflexivity|]. split; [reflexivity|]. split; [reflexivity|].
  split; [exact Hith|]. split; [exact Henc|]. split; [reflexivity|].
  exists opts. exact Hith'.
Defined.

Lemma small_payload_is_not_compressed_witness :
  let packets := [compress_packet] in
  let c := {| threshold := 1024 |} in
  perMessageDeflate compressing_world = Some c
  ∧ packets !! 0 = Some compress_packet
  ∧ payload_len (JsString "4hello") = Some 6%Z
  ∧ (6 < threshold c)%Z
  ∧ List.filter is_write
      (effects_since compressing_world (send packets compressing_world)) !! 0
    = Some (InSend 0,
            SocketSend (JsString "4hello") {| opts_compress := Some false |}
              (callback_of 0 1 0))
  ∧ (∀ a payload opts cb len,
       (a, SocketSend payload opts cb)
         ∈ effects_since compressing_world (send packets compressing_world) →
       payload_len payload = Some len →
       (len < threshold c)%Z →
       opts = {| opts_compress := Some false |}).
Proof.
  intros packets c.
  assert (Hs : typeof JsUndefined ≠ "string") by discriminate.
  assert (Hlt : (6 < threshold c)%Z) by (vm_compute; reflexivity).
  destruct (small_payload_is_not_compressed compressing_world c eq_refl)
    as (_ & _ & Hall & Hreq).
  split; [reflexivity|]. split; [reflexivity|]. split; [reflexivity|].
  split; [exact Hlt|]. split.
  - exact (Hreq packets 0 compress_packet _ 6%Z eq_refl eq_refl eq_refl Hs
             eq_refl Hlt).
  - exact (Hall packets).
Defined.

Lemma callback_error_leaves_batch_running_witness :
  let packets := [plain_packet; string_packet; compress_packet; frame_packet] in
  let effects := effects_since failing_world (send packets failing_world) in
  let report :=
    (InOnSent (callback_of 0 4 0) (Some write_failure),
     OnError (JsString "write error") (JsString "Error: closed")) in
  effects = take 3 effects ++ report :: drop 4 effects
  ∧ count is_write (drop 4 effects) = 3
  ∧ held demo_sent !! 1 = Some (callback_of 0 2 1)
  ∧ ∃ u', step (AdapterCompletes 1 None) demo_sent = Some u'
          ∧ writable u' = true.
Proof.
  intros packets effects report.
  destruct (callback_error_leaves_batch_running failing_world packets)
    as (_ & Hafter & _ & Hfinal).
  assert (Hsplit : effects = take 3 effects ++ report :: drop 4 effects)
    by (vm_compute; reflexivity).
  destruct (Hafter _ _ _ _ _ _ Hsplit) as [_ Hcount].
  destruct (Hfinal demo_sent 1 (callback_of 0 2 1) eq_refl eq_refl)
    as (u' & Hstep & _ & Hup).
  split; [exact Hsplit|]. split; [exact Hcount|]. split; [reflexivity|].
  by exists u'.
Defined.


(** * Further properties *)

(** ** One iteration, in full *)

Lemma typeof_function v :
  typeof v = "function" → ∃ arity, v = JsFunction arity.
Proof. destruct v; simpl; try discriminate. eauto. Qed.

Lemma adapter_takes_full cb w w1 added :
  trace w1 = trace w ++ added →
  held w1 = held w →
  writable w1 = writable w →
  same_setup w w1 →
  ∃ c,
    c = respond (socket w) (trace w ++ added)
    ∧ trace (adapter_takes cb w1) = trace w ++ added ++ reaction cb c
    ∧ held (adapter_takes cb w1) =
        held w ++ match c with Deferred => [cb] | Immediately _ => [] end
    ∧ writable (adapter_takes cb w1) =
        match c with
        | Immediately None => if isLast cb then true else writable w
        | _ => writable w
        end
    ∧ same_setup w (adapter_takes cb w1).
Proof.
  intros Ht Hh Hw Hs. eexists. split; [reflexivity|].
  rewrite adapter_takes_trace, adapter_takes_held, adapter_takes_writable.
  pose proof Hs as (_&_&Hsock&_).
  rewrite Hsock, Ht, Hh, Hw, <- app_assoc.
  split; [done|]. split; [done|]. split; [done|].
  eapply same_setup_trans; [exact Hs|apply adapter_takes_setup].
Qed.

Lemma send_packet_full batch n i packet w :
  let cb := callback_of batch n i in
  ∃ own wr,
    dispatch w batch cb packet own wr
    ∧ ∃ c,
        c = respond (socket w) (trace w ++ own ++ [(InSend batch, wr)])
        ∧ trace (send_packet batch n i packet w) =
            trace w ++ (own ++ [(InSend batch, wr)]) ++ reaction cb c
        ∧ held (send_packet batch n i packet w) =
            held w ++ match c with Deferred => [cb] | Immediately _ => [] end
        ∧ writable (send_packet batch n i packet w) =
            match c with
            | Immediately None => if isLast cb then true else writable w
            | _ => writable w
            end
        ∧ same_setup w (send_packet batch n i packet w).
Proof.
  intros cb. unfold send_packet. fold (has_pre_encoded_string packet).
  fold (fresh_opts packet). fold (callback_of batch n i). fold cb.
  destruct (has_pre_encoded_string packet) eqn:Hpre.
  - pose proof Hpre as Hpre'. unfold has_pre_encoded_string in Hpre'.
    apply andb_true_iff in Hpre' as [Ho Hs].
    apply bool_decide_eq_true in Ho as [o Ho].
    apply typeof_string in Hs as [s Hs].
    rewrite Hs. unfold option_field in Hs. rewrite Ho in Hs.
    eexists [], _. split; [by eapply dispatch_string|].
    unfold send_payload, socket_send. fold (effective_opts w (fresh_opts packet) (JsString s)).
    by apply adapter_takes_full.
  - destruct (_canSendPreEncodedFrame packet w) eqn:Hcan.
    + eexists [], _. split; [by apply dispatch_frame|].
      unfold sender_sendFrame. by apply adapter_takes_full.
    + eexists [_], _. split; [by apply dispatch_codec|].
      unfold send_payload, socket_send.
      apply adapter_takes_full; try done.
      simpl. by rewrite <- app_assoc.
Qed.

(** ** Every effect of [send], explained *)

Lemma send_loop_entries batch n rest :
  ∀ i w,
  ∃ added,
    trace (send_loop batch n i rest w) = trace w ++ added
    ∧ same_setup w (send_loop batch n i rest w)
    ∧ ∀ x, x ∈ added →
        (∃ j packet own wr,
           rest !! j = Some packet
           ∧ dispatch w batch (callback_of batch n (i + j)) packet own wr
           ∧ x ∈ own ++ [(InSend batch, wr)])
        ∨ (∃ j c, j < length rest ∧ x ∈ reaction (callback_of batch n (i + j)) c).
Proof.
  induction rest as [|p rest IH]; intros i w; simpl.
  - exists []. rewrite app_nil_r. split; [done|].
    split; [apply same_setup_refl|]. by intros x ?%elem_of_nil.
  - destruct (send_packet_full batch n i p w)
      as (own & wr & Hd & c & _ & Ht & _ & _ & Hs).
    destruct (IH (S i) (send_packet batch n i p w)) as (added & Ht' & Hs' & Hall).
    eexists. split; [rewrite Ht', Ht, <- !app_assoc; reflexivity|].
    split; [by eapply same_setup_trans|].
    intros x Hx. rewrite !app_assoc in Hx.
    apply elem_of_app in Hx as [Hx|Hx].
    + apply elem_of_app in Hx as [Hx|Hx].
      * left. exists 0, p, own, wr. rewrite Nat.add_0_r. by repeat split.
      * right. exists 0, c. rewrite Nat.add_0_r. split; [lia|done].
    + destruct Hs as (G1 & G2 & G3 & G4 & _).
      destruct (Hall x Hx) as [(j & q & own' & wr' & Hj & Hd' & Hin)|(j & c' & Hj & Hin)].
      * left. exists (S j), q, own', wr'.
        replace (i + S j) with (S i + j) by lia.
        split; [done|]. split; [|done]. by eapply dispatch_setup.
      * right. exists (S j), c'.
        replace (i + S j) with (S i + j) by lia. split; [lia|done].
Qed.

(** Each entry that [send] adds to the trace is its first assignment, an
    effect of the code of an iteration, or an effect of a callback that the
    adapter ran before returning from a write. *)
Lemma send_entries w packets (x : Entry) :
  let batch := length (batches w) in
  let n := length packets in
  x ∈ effects_since w (send packets w) →
  x = (InSend batch, WritableSet false)
  ∨ (∃ i packet own wr,
       packets !! i = Some packet
       ∧ dispatch w batch (callback_of batch n i) packet own wr
       ∧ x ∈ own ++ [(InSend batch, wr)])
  ∨ (∃ i c, i < n ∧ x ∈ reaction (callback_of batch n i) c).
Proof.
  intros batch n Hx. unfold send in Hx. fold batch n in Hx.
  set (w0 := set_writable (InSend batch) false
               (with_batches (batches w ++ [packets]) w)) in Hx.
  destruct (send_loop_entries batch n packets 0 w0) as (added & Ht & _ & Hall).
  rewrite (effects_since_app w _ ((InSend batch, WritableSet false) :: added)) in Hx.
  2:{ rewrite Ht. subst w0. simpl. by rewrite <- app_assoc. }
  apply elem_of_cons in Hx as [->|Hx]; [by left|]. right.
  destruct (Hall x Hx) as [(j & q & own & wr & Hj & Hd & Hin)|(j & c & Hj & Hin)].
  - left. exists j, q, own, wr. split; [done|]. split; [|done].
    by apply (dispatch_setup w w0).
  - right. by exists j, c.
Qed.

Lemma send_setup w packets :
  perMessageDeflate (send packets w) = perMessageDeflate w
  ∧ supportsBinary (send packets w) = supportsBinary w
  ∧ socket (send packets w) = socket w
  ∧ parser (send packets w) = parser w
  ∧ closeListener (send packets w) = closeListener w
  ∧ batches (send packets w) = batches w ++ [packets].
Proof.
  unfold send. set (batch := length (batches w)). set (w0 := set_writable _ _ _).
  destruct (send_loop_entries batch (length packets) packets 0 w0)
    as (_ & _ & (H1 & H2 & H3 & H4 & H5 & H6) & _).
  by rewrite H1, H2, H3, H4, H5, H6.
Qed.

(** The options of the [i]-th write, when it is a send through the
    adapter. *)
Lemma write_opts w packets i packet a payload opts cb :
  packets !! i = Some packet →
  List.filter is_write (effects_since w (send packets w)) !! i
    = Some (a, SocketSend payload opts cb) →
  opts = effective_opts w (fresh_opts packet) payload.
Proof.
  intros Hi Hw.
  destruct (iteration_effects w packets i packet Hi)
    as (_ & own & wr & c & Hd & _ & Hith).
  rewrite Hith in Hw. injection Hw as <- Hwr.
  destruct Hd; [|discriminate|]; by injection Hwr as <- <- <-.
Qed.

Lemma fresh_opts_compress packet :
  opts_compress (fresh_opts packet) = requested_compress packet.
Proof. unfold fresh_opts, requested_compress. by destruct (options packet). Qed.

(** X2. While compression is not configured, as on a new transport, every
    send through the adapter carries the [compress] flag its packet asked
    for, [undefined] when the packet has no options. *)
Theorem compress_flag_kept_without_compression :
  ∀ (w : World) (packets : list Packet) (i : nat) (packet : Packet)
    (a : Actor) (payload : JsValue) (opts : SendOptions) (cb : Callback),
    perMessageDeflate w = None →
    packets !! i = Some packet →
    List.filter is_write (effects_since w (send packets w)) !! i
      = Some (a, SocketSend payload opts cb) →
    opts_compress opts = requested_compress packet.
Proof.
  intros w packets i packet a payload opts cb Hoff Hi Hw.
  rewrite (write_opts _ _ _ _ _ _ _ _ Hi Hw).
  unfold effective_opts. rewrite Hoff. apply fresh_opts_compress.
Qed.

(** X3. With compression configured, a payload that is not shorter than the
    threshold, one of exactly the threshold's length included, and a payload
    without a length keep the [compress] flag their packet asked for. *)
Theorem compress_flag_kept_from_threshold_on :
  ∀ (w : World) (c : PerMessageDeflate) (packets : list Packet) (i : nat)
    (packet : Packet) (a : Actor) (payload : JsValue) (opts : SendOptions)
    (cb : Callback),
    perMessageDeflate w = Some c →
    (∀ len, payload_len payload = Some len → (threshold c ≤ len)%Z) →
    packets !! i = Some packet →
    List.filter is_write (effects_since w (send packets w)) !! i
      = Some (a, SocketSend payload opts cb) →
    opts_compress opts = requested_compress packet.
Proof.
  intros w c packets i packet a payload opts cb Hon Hlen Hi Hw.
  rewrite (write_opts _ _ _ _ _ _ _ _ Hi Hw).
  unfold effective_opts, below_threshold. rewrite Hon.
  destruct (payload_len payload) as [len|] eqn:Hl; [|apply fresh_opts_compress].
  specialize (Hlen len eq_refl).
  apply Z.ltb_ge in Hlen as ->. apply fresh_opts_compress.
Qed.

(** ** When a frame is injected and when the codec is called *)

Lemma reaction_kind cb c (x : Entry) :
  x ∈ reaction cb c →
  (∃ m d, x.2 = OnError m d) ∨ x.2 = WritableSet true ∨ x.2 = Emit "drain".
Proof.
  destruct c as [|[e|]]; simpl.
  - by intros ?%elem_of_nil.
  - intros ->%list_elem_of_singleton. left. by eexists _, _.
  - destruct (isLast cb); [|by intros ?%elem_of_nil].
    intros [->|[->|?%elem_of_nil]%elem_of_cons]%elem_of_cons;
      [by right; left|by right; right|done].
Qed.

Lemma can_send_frame_inv packet w :
  _canSendPreEncodedFrame packet w = true →
  perMessageDeflate w = None
  ∧ (∃ s arity, _sender (socket w) = Some s ∧ sendFrame s = JsFunction arity)
  ∧ ∃ o, options packet = Some o ∧ wsPreEncodedFrame o ≠ JsUndefined.
Proof.
  unfold _canSendPreEncodedFrame, socket_sendFrame_property, option_field.
  intros [[Hoff Hfn]%andb_true_iff Hframe]%andb_true_iff.
  split; [|split].
  - destruct (perMessageDeflate w); [|done].
    by rewrite bool_decide_eq_true_2 in Hoff.
  - apply String.eqb_eq, typeof_function in Hfn as [arity Hfn].
    destruct (_sender (socket w)) as [s|]; [|done]. by exists s, arity.
  - destruct (options packet) as [o|]; [|done]. exists o. split; [done|].
    by intros Hu; rewrite Hu in Hframe.
Qed.

Lemma has_string_false_inv packet o :
  has_pre_encoded_string packet = false →
  options packet = Some o →
  typeof (wsPreEncoded o) ≠ "string".
Proof.
  unfold has_pre_encoded_string, option_field. intros H Ho. rewrite Ho in H.
  simpl in H. by apply String.eqb_neq.
Qed.

Lemma can_send_frame_ineligible packet w :
  is_Some (perMessageDeflate w)
  ∨ typeof (socket_sendFrame_property (socket w)) ≠ "function" →
  _canSendPreEncodedFrame packet w = false.
Proof.
  intros H. destruct (_canSendPreEncodedFrame packet w) eqn:Hcan; [|done].
  apply can_send_frame_inv in Hcan as (Hoff & (s & arity & Hs & Hf) & _).
  destruct H as [[c Hc]|Hno]; [congruence|].
  exfalso. apply Hno. unfold socket_sendFrame_property. by rewrite Hs, Hf.
Qed.

(** X4. [send] injects a raw frame for a packet only if compression is not
    configured, the sender of the adapter has a function [sendFrame], and the
    packet's options hold that frame, not undefined, and no pre-encoded
    string; on a transport with compression configured or without such a
    sender, no frame is ever injected. *)
Theorem frame_injected_only_when_eligible :
  ∀ (w : World) (packets : list Packet),
    (∀ i packet a frame cb,
       packets !! i = Some packet →
       List.filter is_write (effects_since w (send packets w)) !! i
         = Some (a, SenderSendFrame frame cb) →
       perMessageDeflate w = None
       ∧ (∃ s arity, _sender (socket w) = Some s ∧ sendFrame s = JsFunction arity)
       ∧ ∃ o, options packet = Some o
              ∧ wsPreEncodedFrame o = frame
              ∧ frame ≠ JsUndefined
              ∧ typeof (wsPreEncoded o) ≠ "string")
    ∧ (is_Some (perMessageDeflate w)
       ∨ typeof (socket_sendFrame_property (socket w)) ≠ "function" →
       count is_sendFrame (effects_since w (send packets w)) = 0).
Proof.
  intros w packets. split.
  - intros i packet a frame cb Hi Hw.
    destruct (iteration_effects w packets i packet Hi)
      as (_ & own & wr & c & Hd & _ & Hith).
    rewrite Hith in Hw. injection Hw as <- Hwr.
    destruct Hd as [| Hpre Hcan |]; [discriminate| |discriminate].
    injection Hwr as <- <-.
    apply can_send_frame_inv in Hcan as (Hoff & Hfn & o & Ho & Hf).
    split; [done|]. split; [done|]. exists o.
    unfold option_field. rewrite Ho.
    repeat split; try done. by eapply has_string_false_inv.
  - intros Hno. apply count_none. intros x Hx.
    apply send_entries in Hx
      as [->|[(i & p & own & wr & _ & Hd & Hin)|(i & c & _ & Hin)]]; [done| |].
    + destruct Hd as [o s Ho Hs| Hpre Hcan |Hpre Hcan].
      * by apply list_elem_of_singleton in Hin as ->.
      * by rewrite (can_send_frame_ineligible _ _ Hno) in Hcan.
      * by apply elem_of_cons in Hin as [->| ->%list_elem_of_singleton].
    + unfold is_sendFrame.
      by apply reaction_kind in Hin as [(m & d & ->)|[-> | ->]].
Qed.

Lemma takes_codec_setup w w' packet :
  same_setup w w' → takes_codec w' packet = takes_codec w packet.
Proof.
  intros (Hd & _ & Hs & _). unfold takes_codec, _canSendPreEncodedFrame.
  by rewrite Hd, Hs.
Qed.

Lemma dispatch_encodes w batch cb packet own wr c :
  dispatch w batch cb packet own wr →
  List.filter is_encode ((own ++ [(InSend batch, wr)]) ++ reaction cb c) =
  if takes_codec w packet
  then [(InSend batch, ParserEncodePacket packet (supportsBinary w))]
  else [].
Proof.
  intros Hd. rewrite !List.filter_app, (reaction_filter is_encode) by done.
  unfold takes_codec.
  destruct Hd as [o s Ho Hs|Hpre Hcan|Hpre Hcan]; simpl.
  - by rewrite (has_string_true _ _ _ Ho Hs).
  - by rewrite Hpre, Hcan.
  - by rewrite Hpre, Hcan.
Qed.

Lemma send_loop_encodes batch n rest :
  ∀ i w,
  ∃ added,
    trace (send_loop batch n i rest w) = trace w ++ added
    ∧ List.filter is_encode added =
        (λ p, (InSend batch, ParserEncodePacket p (supportsBinary w)))
          <$> List.filter (takes_codec w) rest.
Proof.
  induction rest as [|p rest IH]; intros i w; simpl.
  - exists []. by rewrite app_nil_r.
  - destruct (send_packet_full batch n i p w)
      as (own & wr & Hd & c & _ & Ht & _ & _ & Hs).
    destruct (IH (S i) (send_packet batch n i p w)) as (added & Ht' & Henc).
    eexists. split; [rewrite Ht', Ht, <- app_assoc; reflexivity|].
    rewrite List.filter_app, (dispatch_encodes _ _ _ _ _ _ _ Hd), Henc.
    assert (Hf : List.filter (takes_codec (send_packet batch n i p w)) rest
                 = List.filter (takes_codec w) rest).
    { apply List.filter_ext. intros q. by apply takes_codec_setup. }
    destruct Hs as (_ & Hb & _). rewrite Hf, Hb.
    by destruct (takes_codec w p).
Qed.

(** X5. During [send] the codec is called exactly for the packets that have
    no pre-encoded string and do not qualify for frame injection, once each,
    in the order of the packets, and each time with the [supportsBinary] flag
    of the transport. *)
Theorem codec_called_once_per_serialized_packet :
  ∀ (w : World) (packets : list Packet),
    List.filter is_encode (effects_since w (send packets w)) =
    (λ p, (InSend (length (batches w)),
           ParserEncodePacket p (supportsBinary w)))
      <$> List.filter (takes_codec w) packets.
Proof.
  intros w packets. unfold send.
  set (batch := length (batches w)).
  set (w0 := set_writable (InSend batch) false
               (with_batches (batches w ++ [packets]) w)).
  destruct (send_loop_encodes batch (length packets) packets 0 w0)
    as (added & Ht & Henc).
  rewrite (effects_since_app w _ ((InSend batch, WritableSet false) :: added)).
  2:{ rewrite Ht. subst w0. simpl. by rewrite <- app_assoc. }
  simpl. rewrite Henc. f_equal.
Qed.

(** ** What [send] leaves alone and what it leaves behind *)

Lemma send_loop_held batch n rest :
  ∀ i w,
  ∃ more,
    held (send_loop batch n i rest w) = held w ++ more
    ∧ Forall (λ cb, cb_batch cb = batch ∧ i ≤ cb_index cb < i + length rest) more.
Proof.
  induction rest as [|p rest IH]; intros i w; simpl.
  - exists []. by rewrite app_nil_r.
  - destruct (send_packet_full batch n i p w)
      as (own & wr & _ & c & _ & _ & Hh & _ & _).
    destruct (IH (S i) (send_packet batch n i p w)) as (more & Hh' & Hall).
    eexists. split; [rewrite Hh', Hh, <- app_assoc; reflexivity|].
    apply Forall_app. split.
    + destruct c; [|done]. apply Forall_singleton. simpl. lia.
    + eapply Forall_impl; [exact Hall|]. simpl. intros cb. lia.
Qed.

(** [send] performs effects of six kinds only. *)
Lemma send_never w packets (f : Entry → bool) :
  (∀ a m d, f (a, OnError m d) = false) →
  (∀ a b, f (a, WritableSet b) = false) →
  (∀ a name, f (a, Emit name) = false) →
  (∀ a p b, f (a, ParserEncodePacket p b) = false) →
  (∀ a p o cb, f (a, SocketSend p o cb) = false) →
  (∀ a p cb, f (a, SenderSendFrame p cb) = false) →
  count f (effects_since w (send packets w)) = 0.
Proof.
  intros F1 F2 F3 F4 F5 F6. apply count_none. intros x Hx.
  apply send_entries in Hx
    as [->|[(i & p & own & wr & _ & Hd & Hin)|(i & c & _ & Hin)]]; [done| |].
  - destruct Hd as [o s Ho Hs| Hpre Hcan |Hpre Hcan].
    + by apply list_elem_of_singleton in Hin as ->.
    + by apply list_elem_of_singleton in Hin as ->.
    + by apply elem_of_cons in Hin as [->| ->%list_elem_of_singleton].
  - destruct x as [a e]. simpl in *.
    by apply reaction_kind in Hin as [(m & d & Heq)|[Heq|Heq]];
      simpl in Heq; subst e.
Qed.

Lemma send_trace_effects w packets :
  trace (send packets w) = trace w ++ effects_since w (send packets w).
Proof.
  destruct (send_trace packets w) as (later & Ht).
  by rewrite (effects_since_app _ _ _ Ht).
Qed.

(** X6. [send] changes nothing of the transport but [writable] and the
    callbacks held by the adapter: the configuration, the socket and the
    codec stay; it never closes the socket, calls a [doClose] callback or the
    data and close handlers; and the callbacks it leaves with the adapter are
    added behind those already there and belong to the packets of this
    batch. *)
Theorem send_leaves_the_rest_alone :
  ∀ (w : World) (packets : list Packet),
    let effects := effects_since w (send packets w) in
    perMessageDeflate (send packets w) = perMessageDeflate w
    ∧ supportsBinary (send packets w) = supportsBinary w
    ∧ socket (send packets w) = socket w
    ∧ parser (send packets w) = parser w
    ∧ closeListener (send packets w) = closeListener w
    ∧ count is_socket_close effects = 0
    ∧ count is_fn_call effects = 0
    ∧ count is_onClose effects = 0
    ∧ count is_onData effects = 0
    ∧ ∃ more,
        held (send packets w) = held w ++ more
        ∧ Forall (λ cb, cb_batch cb = length (batches w)
                        ∧ cb_index cb < length packets) more.
Proof.
  intros w packets effects.
  destruct (send_setup w packets) as (H1 & H2 & H3 & H4 & H5 & _).
  do 5 (split; [done|]).
  do 4 (split; [by apply send_never|]).
  unfold send. set (batch := length (batches w)). set (w0 := set_writable _ _ _).
  destruct (send_loop_held batch (length packets) packets 0 w0) as (more & Hh & Hall).
  exists more. split; [exact Hh|].
  eapply Forall_impl; [exact Hall|]. simpl. intros cb. lia.
Qed.

(** ** The flag when [send] returns *)

Lemma send_loop_flag batch n rest :
  ∀ i w,
    i + length rest = n →
    writable w = false →
    ∃ added,
      trace (send_loop batch n i rest w) = trace w ++ added
      ∧ (writable (send_loop batch n i rest w) = true
         ↔ (InOnSent (callback_of batch n (n - 1)) None, WritableSet true) ∈ added).
Proof.
  induction rest as [|p rest IH]; intros i w Hi Hw.
  - exists []. cbn [send_loop]. rewrite app_nil_r. split; [done|]. rewrite Hw.
    split; [done|by intros ?%elem_of_nil].
  - cbn [send_loop].
    destruct (send_packet_full batch n i p w)
      as (own & wr & Hd & c & _ & Ht & _ & Hwr & _).
    assert (Hlast : isLast (callback_of batch n i) = Nat.eqb (i + 1) n) by done.
    assert (Hown : ∀ cb', (InOnSent cb' None, WritableSet true)
                          ∉ own ++ [(InSend batch, wr)]).
    { intros cb' Hin. by apply (dispatch_by_send _ _ _ _ _ _ _ Hd) in Hin. }
    cbn [length] in Hi. destruct rest as [|q rest].
    + (* the final packet *)
      clear IH. cbn [length] in Hi. cbn [send_loop].
      assert (Hi' : n - 1 = i) by lia. rewrite Hi'.
      remember (callback_of batch n i) as cb eqn:Hcb. clear Hcb.
      assert (Hl : isLast cb = true) by (rewrite Hlast; apply Nat.eqb_eq; lia).
      eexists. split; [exact Ht|]. rewrite Hwr, Hl, Hw.
      rewrite elem_of_app. split.
      * destruct c as [|[e|]]; [done|done|]. intros _. right.
        unfold reaction, onSent_effects. rewrite Hl. apply list_elem_of_here.
      * intros [Hin|Hin]; [by apply Hown in Hin|].
        destruct c as [|[e|]]; [|by apply list_elem_of_singleton in Hin|done].
        by apply elem_of_nil in Hin.
    + (* a packet before the final one *)
      remember (callback_of batch n i) as cb eqn:Hcb. clear Hcb.
      assert (Hl : isLast cb = false).
      { rewrite Hlast. apply Nat.eqb_neq. cbn [length] in Hi. lia. }
      destruct (IH (S i) (send_packet batch n i p w)) as (added & Ht' & Hiff).
      { cbn [length] in *. lia. }
      { rewrite Hwr, Hl. by destruct c as [|[e|]]. }
      eexists. split; [rewrite Ht', Ht, <- app_assoc; reflexivity|].
      rewrite Hiff, (elem_of_app _ added), (elem_of_app _ (reaction cb c)).
      split; [by right|].
      intros [[Hin|Hin]|Hin]; [by apply Hown in Hin| |done].
      destruct c as [|[e|]]; unfold reaction, onSent_effects in Hin.
      * by apply elem_of_nil in Hin.
      * by apply list_elem_of_singleton in Hin.
      * rewrite Hl in Hin. by apply elem_of_nil in Hin.
Qed.

(** X8. When [send] returns, [writable] is true exactly if the adapter has
    already run the callback of the final packet of this batch without an
    error, before returning from the write; otherwise, and always after an
    empty batch, it is false. *)
Theorem writable_on_return_from_send :
  ∀ (w : World) (packets : list Packet),
    let batch := length (batches w) in
    let n := length packets in
    writable (send packets w) = true
    ↔ (InOnSent (callback_of batch n (n - 1)) None, WritableSet true)
        ∈ effects_since w (send packets w).
Proof.
  intros w packets batch n. unfold send. fold batch n.
  set (w0 := set_writable (InSend batch) false
               (with_batches (batches w ++ [packets]) w)).
  destruct (send_loop_flag batch n packets 0 w0) as (added & Ht & Hiff); [done..|].
  rewrite (effects_since_app w _ ((InSend batch, WritableSet false) :: added)).
  2:{ rewrite Ht. subst w0. simpl. by rewrite <- app_assoc. }
  rewrite Hiff, elem_of_cons. split; [by right|]. by intros [?|?].
Qed.

(** ** An adapter that completes every write later *)

Lemma send_loop_deferred batch n rest :
  ∀ i w,
    (∀ tr, respond (socket w) tr = Deferred) →
    ∃ added,
      trace (send_loop batch n i rest w) = trace w ++ added
      ∧ Forall (λ x : Entry, x.1 = InSend batch) added
      ∧ held (send_loop batch n i rest w) =
          held w ++ (callback_of batch n <$> seq i (length rest))
      ∧ writable (send_loop batch n i rest w) = writable w.
Proof.
  induction rest as [|p rest IH]; intros i w Hdef; simpl.
  - exists []. by rewrite !app_nil_r.
  - destruct (send_packet_full batch n i p w)
      as (own & wr & Hd & c & Hc & Ht & Hh & Hwr & Hs).
    rewrite Hdef in Hc. subst c. simpl in *. rewrite app_nil_r in Ht.
    destruct (IH (S i) (send_packet batch n i p w)) as (added & Ht' & Hall & Hh' & Hw').
    { intros tr. destruct Hs as (_ & _ & -> & _). apply Hdef. }
    eexists. split; [rewrite Ht', Ht, <- app_assoc; reflexivity|].
    split; [|split].
    + apply Forall_app. split; [|done]. apply Forall_forall. intros x Hx.
      by apply (dispatch_by_send _ _ _ _ _ _ _ Hd).
    + by rewrite Hh', Hh, <- app_assoc.
    + by rewrite Hw', Hwr.
Qed.

(** X7. On an adapter that completes every write later, [send] returns with
    [writable] false, no callback has run, and the adapter holds, behind the
    callbacks it held before, one callback for each packet in the order of
    the packets. *)
Theorem send_with_deferring_adapter :
  ∀ (w : World) (packets : list Packet),
    (∀ tr, respond (socket w) tr = Deferred) →
    let batch := length (batches w) in
    let n := length packets in
    writable (send packets w) = false
    ∧ held (send packets w) = held w ++ (callback_of batch n <$> seq 0 n)
    ∧ Forall (λ x : Entry, x.1 = InSend batch) (effects_since w (send packets w)).
Proof.
  intros w packets Hdef batch n. unfold send. fold batch n.
  set (w0 := set_writable (InSend batch) false
               (with_batches (batches w ++ [packets]) w)).
  destruct (send_loop_deferred batch n packets 0 w0 Hdef)
    as (added & Ht & Hall & Hh & Hw).
  rewrite (effects_since_app w _ ((InSend batch, WritableSet false) :: added)).
  2:{ rewrite Ht. subst w0. simpl. by rewrite <- app_assoc. }
  split; [by rewrite Hw|]. split; [by rewrite Hh|].
  by apply Forall_cons.
Qed.

(** ** The steps of a transport, by kind *)

(** A step is a call of [send], the run of a held callback, or a step that
    leaves the flag, the callbacks and the batches alone and adds entries of
    [doClose] or of a listener; among them the close handler at most once,
    and only when the listener was still attached. *)
Lemma step_cases a w w' :
  step a w = Some w' →
  (∃ packets, a = CallSend packets ∧ w' = send packets w)
  ∨ (∃ k err cb,
       a = AdapterCompletes k err
       ∧ held w !! k = Some cb
       ∧ w' = onSent cb err (with_held (delete k (held w)) w))
  ∨ (held w' = held w
     ∧ batches w' = batches w
     ∧ writable w' = writable w
     ∧ ∃ added,
         trace w' = trace w ++ added
         ∧ Forall (λ x, bystander x = true) added
         ∧ (closeListener w' = closeListener w ∧ count is_onClose added = 0
            ∨ closeListener w = true ∧ closeListener w' = false
              ∧ count is_onClose added = 1)).
Proof.
  intros Hstep. destruct a as [packets|fn|c|k err|payload isBinary| |err];
    simpl in Hstep.
  - left. exists packets. by injection Hstep as <-.
  - right; right. injection Hstep as <-.
    split; [by destruct fn|]. split; [by destruct fn|]. split; [by destruct fn|].
    eexists. split; [apply doClose_trace|].
    split; [|left; by destruct fn].
    destruct fn; repeat constructor.
  - right; right. injection Hstep as <-. repeat split.
    exists []. rewrite app_nil_r. split; [done|]. split; [done|by left].
  - right; left. destruct (held w !! k) as [cb|] eqn:Hk; [|done].
    injection Hstep as <-. by exists k, err, cb.
  - right; right. injection Hstep as <-. repeat split.
    eexists [_]. split; [reflexivity|]. split; [by repeat constructor|by left].
  - right; right. injection Hstep as <-. unfold on_close.
    destruct (closeListener w) eqn:Hl.
    + repeat split. eexists [_]. split; [reflexivity|].
      split; [by repeat constructor|by right].
    + repeat split. exists []. rewrite app_nil_r.
      split; [done|]. split; [done|by left].
  - right; right. injection Hstep as <-. repeat split.
    eexists [_]. split; [reflexivity|]. split; [by repeat constructor|by left].
Qed.

Lemma bystander_count (f : Entry → bool) added :
  Forall (λ x, bystander x = true) added →
  f (InDoClose, SocketCloseCall) = false →
  (∀ fn, f (InDoClose, FnCall fn) = false) →
  (∀ m, f (InListener, OnData m) = false) →
  f (InListener, OnClose) = false →
  (∀ m d, f (InListener, OnError m d) = false) →
  count f added = 0.
Proof.
  intros Hall F1 F2 F3 F4 F5. apply count_none. intros [a e] Hx.
  rewrite Forall_forall in Hall. specialize (Hall _ Hx).
  destruct a, e; simpl in Hall; try discriminate; auto.
Qed.

(** ** The close listener *)

(** X9. In every world a transport can reach, the close handler of the base
    class has been called by the listener on ["close"] at most once: not at
    all while the listener, registered with [once], is attached, and once
    when it is gone, however many times the socket emitted ["close"]. *)
Theorem close_handler_runs_once :
  ∀ w : World,
    reachable w →
    count is_onClose (trace w) = (if closeListener w then 0 else 1).
Proof.
  induction 1 as [req base w Hnew|a w w' _ IH _ Hstep].
  - unfold new_WebSocket in Hnew. destruct (websocket req); [|done].
    by injection Hnew as <-.
  - apply step_cases in Hstep
      as [(packets & _ & ->)|[(k & err & cb & _ & _ & ->)|(_ & _ & _ & added & Ht & _ & Hc)]].
    + destruct (send_setup w packets) as (_ & _ & _ & _ & -> & _).
      rewrite send_trace_effects, count_app, IH.
      by rewrite send_never.
    + destruct (onSent_setup cb err (with_held (delete k (held w)) w))
        as (_ & _ & _ & _ & -> & _).
      rewrite onSent_trace, count_app. simpl. rewrite IH.
      unfold count. fold (reaction cb (Immediately err)).
      by rewrite reaction_filter.
    + rewrite Ht, count_app, IH.
      destruct Hc as [[-> ->]|(Hl & -> & ->)]; [lia|]. by rewrite Hl.
Qed.

Lemma close_handler_runs_once_witness :
  reachable (on_close (on_close demo_sent))
  ∧ count is_onClose (trace (on_close (on_close demo_sent))) = 1.
Proof.
  assert (H : reachable (on_close (on_close demo_sent))).
  { eapply (runs_step _ SocketClose (on_close demo_sent)); [|exact I|reflexivity].
    eapply (runs_step _ SocketClose demo_sent); [|exact I|reflexivity].
    eapply (runs_step _ (CallSend _) demo_world); [|exact I|reflexivity].
    exact (runs_new _ demo_request demo_base demo_world eq_refl). }
  split; [exact H|].
  exact (close_handler_runs_once _ H).
Defined.

(** ** Accounting of writes and completions *)

Lemma dispatch_counts w batch cb packet own wr :
  dispatch w batch cb packet own wr →
  count is_write (own ++ [(InSend batch, wr)]) = 1
  ∧ count is_write_error (own ++ [(InSend batch, wr)]) = 0
  ∧ count is_drain (own ++ [(InSend batch, wr)]) = 0.
Proof. by intros [| |]. Qed.

Lemma reaction_counts cb c :
  count is_write (reaction cb c) = 0
  ∧ count is_write_error (reaction cb c) + count is_drain (reaction cb c)
    + length (match c with Deferred => [cb] | Immediately _ => [] end) ≤ 1
  ∧ count is_drain (reaction cb c)
    + length (List.filter isLast
                (match c with Deferred => [cb] | Immediately _ => [] end))
    ≤ (if isLast cb then 1 else 0).
Proof.
  destruct c as [|[e|]]; unfold count; simpl.
  - destruct (isLast cb); simpl; lia.
  - destruct (isLast cb); simpl; lia.
  - destruct (isLast cb); simpl; lia.
Qed.

Lemma send_loop_account batch n rest :
  ∀ i w,
    count is_write_error (trace (send_loop batch n i rest w))
    + count is_drain (trace (send_loop batch n i rest w))
    + length (held (send_loop batch n i rest w))
    + count is_write (trace w)
    ≤ count is_write_error (trace w) + count is_drain (trace w)
      + length (held w)
      + count is_write (trace (send_loop batch n i rest w)).
Proof.
  induction rest as [|p rest IH]; intros i w; simpl; [lia|].
  destruct (send_packet_full batch n i p w)
    as (own & wr & Hd & c & _ & Ht & Hh & _ & _).
  specialize (IH (S i) (send_packet batch n i p w)).
  rewrite Ht, Hh, !count_app, length_app in IH.
  destruct (dispatch_counts _ _ _ _ _ _ Hd) as (H1 & H2 & H3).
  destruct (reaction_counts (callback_of batch n i) c) as (H4 & H5 & _).
  rewrite count_app in H1, H2, H3. lia.
Qed.

(** X13. In every world a transport can reach, the reports of failed writes,
    the emissions of ["drain"] and the callbacks still held by the adapter
    together never outnumber the writes made: no completion is reported for
    a write that was not made, and none twice. *)
Theorem completions_never_outnumber_writes :
  ∀ w : World,
    reachable w →
    count is_write_error (trace w) + count is_drain (trace w) + length (held w)
    ≤ count is_write (trace w).
Proof.
  induction 1 as [req base w Hnew|a w w' _ IH _ Hstep].
  - unfold new_WebSocket in Hnew. destruct (websocket req); [|done].
    injection Hnew as <-. unfold count. simpl. lia.
  - apply step_cases in Hstep
      as [(packets & _ & ->)|[(k & err & cb & _ & Hk & ->)|(Hh & _ & _ & added & Ht & Hall & _)]].
    + unfold send. set (batch := length (batches w)).
      set (w0 := set_writable (InSend batch) false
                   (with_batches (batches w ++ [packets]) w)).
      pose proof (send_loop_account batch (length packets) packets 0 w0) as Hl.
      assert (H0 : trace w0 = trace w ++ [(InSend batch, WritableSet false)]) by done.
      assert (Hh0 : held w0 = held w) by done.
      rewrite H0, Hh0, !count_app in Hl.
      change (count is_write [(InSend batch, WritableSet false)]) with 0 in Hl.
      change (count is_write_error [(InSend batch, WritableSet false)]) with 0 in Hl.
      change (count is_drain [(InSend batch, WritableSet false)]) with 0 in Hl.
      lia.
    + rewrite onSent_trace, onSent_held, !count_app. simpl.
      pose proof (length_delete (held w) k (mk_is_Some _ _ Hk)) as Hlen.
      pose proof (lookup_lt_Some _ _ _ Hk) as Hlt.
      destruct (reaction_counts cb (Immediately err)) as (H4 & H5 & _).
      simpl in H4, H5. lia.
    + rewrite Ht, Hh, !count_app.
      rewrite (bystander_count is_write_error added), (bystander_count is_drain added),
        (bystander_count is_write added) by done.
      lia.
Qed.

Lemma completions_never_outnumber_writes_witness :
  reachable demo_failed
  ∧ count is_write_error (trace demo_failed) + count is_drain (trace demo_failed)
    + length (held demo_failed)
    ≤ count is_write (trace demo_failed).
Proof.
  assert (H : reachable demo_failed).
  { eapply (runs_step _ (AdapterCompletes 1 (Some write_failure)) demo_sent);
      [|exact I|reflexivity].
    eapply (runs_step _ (CallSend _) demo_world); [|exact I|reflexivity].
    exact (runs_new _ demo_request demo_base demo_world eq_refl). }
  split; [exact H|].
  exact (completions_never_outnumber_writes _ H).
Defined.

Lemma send_loop_finals batch n rest :
  ∀ i w,
    i + length rest = n →
    finals (send_loop batch n i rest w)
    ≤ finals w + (match rest with [] => 0 | _ => 1 end).
Proof.
  induction rest as [|p rest IH]; intros i w Hi; cbn [send_loop]; [lia|].
  destruct (send_packet_full batch n i p w)
    as (own & wr & Hd & c & _ & Ht & Hh & _ & _).
  assert (Hlast : isLast (callback_of batch n i) = Nat.eqb (i + 1) n) by done.
  destruct (dispatch_counts _ _ _ _ _ _ Hd) as (_ & _ & H3).
  destruct (reaction_counts (callback_of batch n i) c) as (_ & _ & H6).
  assert (Hstep : finals (send_packet batch n i p w)
                  ≤ finals w + (if Nat.eqb (i + 1) n then 1 else 0)).
  { unfold finals. rewrite Ht, Hh, !count_app, List.filter_app, length_app.
    rewrite Hlast in H6. rewrite count_app in H3. lia. }
  cbn [length] in Hi.
  specialize (IH (S i) (send_packet batch n i p w)).
  destruct rest as [|q rest].
  - cbn [send_loop]. destruct (i + 1 =? n); lia.
  - assert (Hne : (i + 1 =? n) = false) by (apply Nat.eqb_neq; cbn [length] in Hi; lia).
    rewrite Hne in Hstep. cbn [length] in *.
    assert (S i + S (length rest) = n) by lia. specialize (IH H). lia.
Qed.

(** X14. In every world a transport can reach, ["drain"] has been emitted
    at most as many times as [send] has been called, counting with the
    emissions the callbacks of final packets that the adapter still holds. *)
Theorem drains_never_outnumber_batches :
  ∀ w : World,
    reachable w →
    count is_drain (trace w) + length (List.filter isLast (held w))
    ≤ length (batches w).
Proof.
  intros w Hr. fold (finals w).
  induction Hr as [req base w Hnew|a w w' _ IH _ Hstep].
  - unfold new_WebSocket in Hnew. destruct (websocket req); [|done].
    injection Hnew as <-. unfold finals, count. simpl. lia.
  - apply step_cases in Hstep
      as [(packets & _ & ->)|[(k & err & cb & _ & Hk & ->)|(Hh & Hb & _ & added & Ht & Hall & _)]].
    + destruct (send_setup w packets) as (_ & _ & _ & _ & _ & ->).
      rewrite length_app. simpl.
      unfold send. set (batch := length (batches w)).
      set (w0 := set_writable (InSend batch) false
                   (with_batches (batches w ++ [packets]) w)).
      pose proof (send_loop_finals batch (length packets) packets 0 w0 eq_refl) as Hl.
      assert (H0 : finals w0 = finals w).
      { unfold finals. subst w0. simpl. rewrite count_app. unfold count at 2.
        simpl. lia. }
      destruct packets; lia.
    + unfold finals in *. rewrite onSent_trace, onSent_held, count_app. simpl.
      pose proof (filter_delete isLast _ _ _ Hk) as Hf.
      destruct (reaction_counts cb (Immediately err)) as (_ & _ & H6).
      simpl in H6.
      destruct (onSent_setup cb err (with_held (delete k (held w)) w))
        as (_ & _ & _ & _ & _ & ->). simpl.
      destruct (isLast cb); lia.
    + unfold finals in *. rewrite Ht, Hh, Hb, count_app.
      rewrite (bystander_count is_drain added) by done. lia.
Qed.

Lemma drains_never_outnumber_batches_witness :
  reachable demo_drained
  ∧ count is_drain (trace demo_drained)
    + length (List.filter isLast (held demo_drained))
    ≤ length (batches demo_drained).
Proof.
  assert (H : reachable demo_drained).
  { eapply (runs_step _ (AdapterCompletes 1 None) demo_sent); [|exact I|reflexivity].
    eapply (runs_step _ (CallSend _) demo_world); [|exact I|reflexivity].
    exact (runs_new _ demo_request demo_base demo_world eq_refl). }
  split; [exact H|].
  exact (drains_never_outnumber_batches _ H).
Defined.

(** ** An empty batch *)

Lemma follows_empty_batch w :
  cooperative w →
  writable w = true →
  ∀ w', follows honours_writable (send [] w) w' →
    writable w' = false
    ∧ (∀ cb, cb ∈ held w' → isLast cb = false)
    ∧ batches w' = batches w ++ [[]]
    ∧ ∃ added, trace w' = trace w ++ added ∧ count is_drain added = 0
               ∧ count is_write added = 0.
Proof.
  intros [_ [Hh _]]%cooperative_invariants Hup w' Hf.
  induction Hf as [|a w' w'' _ IH Hpol Hstep].
  - split; [done|]. split.
    + intros cb Hin. destruct (isLast cb) eqn:Hl; [|done].
      destruct (Hh cb Hin Hl) as [_ Hdown]. congruence.
    + split; [done|]. by exists [(InSend (length (batches w)), WritableSet false)].
  - destruct IH as (Hw & Hheld & Hb & added & Ht & Hd & Hwr).
    apply step_cases in Hstep
      as [(packets & -> & _)|[(k & err & cb & _ & Hk & ->)|(Hh' & Hb' & Hw' & more & Ht' & Hall & _)]].
    + simpl in Hpol. congruence.
    + pose proof (Hheld cb (list_elem_of_lookup_2 _ _ _ Hk)) as Hl.
      rewrite onSent_writable, onSent_held, onSent_trace.
      destruct (onSent_setup cb err (with_held (delete k (held w')) w'))
        as (_ & _ & _ & _ & _ & ->). simpl.
      split; [by destruct err; rewrite ?Hl|]. split.
      { intros cb' Hin%elem_of_delete. by apply Hheld. }
      split; [done|].
      exists (added ++ onSent_effects cb err).
      rewrite Ht, <- app_assoc, !count_app, Hd, Hwr.
      split; [done|]. unfold onSent_effects. rewrite Hl. by destruct err.
    + rewrite Hh', Hb', Hw'. do 3 (split; [done|]).
      exists (added ++ more).
      rewrite Ht', Ht, <- app_assoc, !count_app, Hd, Hwr.
      by rewrite (bystander_count is_drain more), (bystander_count is_write more).
Qed.

(** X1. An empty batch wedges a cooperative transport: [send([])] on a
    writable transport sets [writable] to false, writes nothing and leaves no
    callback that could set it again; whatever the adapter, the socket and a
    user who only sends when writable do afterwards, [writable] stays false,
    no ["drain"] is emitted and no further batch is sent. *)
Theorem empty_batch_wedges_the_transport :
  ∀ w w' : World,
    cooperative w →
    writable w = true →
    follows honours_writable (send [] w) w' →
    writable w' = false
    ∧ batches w' = batches w ++ [[]]
    ∧ count is_drain (effects_since w w') = 0
    ∧ count is_write (effects_since w w') = 0.
Proof.
  intros w w' Hc Hup Hf.
  destruct (follows_empty_batch w Hc Hup w' Hf)
    as (Hw & _ & Hb & added & Ht & Hd & Hwr).
  by rewrite (effects_since_app _ _ _ Ht).
Qed.

Lemma empty_batch_wedges_the_transport_witness :
  let w' := on_message (JsString "ping") false
              (onSent (callback_of 0 2 0) None
                 (with_held [] (send [] demo_drained))) in
  cooperative demo_drained
  ∧ writable demo_drained = true
  ∧ follows honours_writable (send [] demo_drained) w'
  ∧ writable w' = false
  ∧ count is_drain (effects_since demo_drained w') = 0.
Proof.
  intros w'.
  assert (Hc : cooperative demo_drained).
  { eapply (runs_step _ (AdapterCompletes 1 None) demo_sent); [|exact I|reflexivity].
    eapply (runs_step _ (CallSend _) demo_world); [|reflexivity|reflexivity].
    exact (runs_new _ demo_request demo_base demo_world eq_refl). }
  assert (Hf : follows honours_writable (send [] demo_drained) w').
  { eapply (follows_step _ _ (SocketMessage _ _)
              (onSent (callback_of 0 2 0) None
                 (with_held [] (send [] demo_drained)))); [|exact I|reflexivity].
    eapply (follows_step _ _ (AdapterCompletes 0 None) (send [] demo_drained));
      [|exact I|reflexivity].
    apply follows_here. }
  destruct (empty_batch_wedges_the_transport demo_drained w' Hc eq_refl Hf)
    as (Hw & _ & Hd & _).
  split; [exact Hc|]. split; [reflexivity|]. split; [exact Hf|].
  split; [exact Hw|exact Hd].
Defined.

(** ** Closing again, and completions after closing *)

Lemma doClose_repeated n fn w :
  ∃ added,
    trace (Nat.iter n (doClose fn) w) = trace w ++ added
    ∧ count is_socket_close added = n
    ∧ count is_fn_call added = match fn with Some _ => n | None => 0 end
    ∧ writable (Nat.iter n (doClose fn) w) = writable w
    ∧ held (Nat.iter n (doClose fn) w) = held w.
Proof.
  induction n as [|n (added & Ht & Hc & Hf & Hw & Hh)]; simpl.
  - exists []. rewrite app_nil_r. by destruct fn.
  - eexists. rewrite doClose_trace, Ht, <- app_assoc.
    split; [reflexivity|]. rewrite !count_app, Hc, Hf.
    destruct fn; simpl; rewrite ?Hw, ?Hh; unfold count; simpl;
      repeat split; lia.
Qed.

(** X10. [doClose] has no guard and cancels nothing: called [n] times it
    closes the socket [n] times and calls a given callback [n] times, and it
    leaves [writable] and the callbacks held by the adapter as they are, so
    that the callback of a final packet that completes without an error after
    the close still sets [writable] and emits ["drain"]. *)
Theorem doClose_is_unguarded :
  ∀ (n : nat) (fn : option Fn) (w : World),
    let w' := Nat.iter n (doClose fn) w in
    count is_socket_close (effects_since w w') = n
    ∧ count is_fn_call (effects_since w w') = match fn with Some _ => n | None => 0 end
    ∧ writable w' = writable w
    ∧ held w' = held w
    ∧ ∀ k cb,
        held w !! k = Some cb →
        isLast cb = true →
        ∃ u, step (AdapterCompletes k None) w' = Some u
             ∧ writable u = true
             ∧ trace u = trace w' ++ [(InOnSent cb None, WritableSet true);
                                      (InOnSent cb None, Emit "drain")].
Proof.
  intros n fn w w'.
  destruct (doClose_repeated n fn w) as (added & Ht & Hc & Hf & Hw & Hh).
  fold w' in Ht, Hw, Hh.
  rewrite (effects_since_app _ _ _ Ht).
  do 4 (split; [done|]).
  intros k cb Hk Hl. unfold step. rewrite Hh, Hk. eexists. split; [done|].
  rewrite onSent_writable, onSent_trace. unfold onSent_effects.
  by rewrite Hl.
Qed.

Lemma doClose_is_unguarded_witness :
  let w' := Nat.iter 2 (doClose (Some (FnId 7))) demo_sent in
  count is_socket_close (effects_since demo_sent w') = 2
  ∧ held demo_sent !! 1 = Some (callback_of 0 2 1)
  ∧ ∃ u, step (AdapterCompletes 1 None) w' = Some u ∧ writable u = true.
Proof.
  intros w'.
  destruct (doClose_is_unguarded 2 (Some (FnId 7)) demo_sent)
    as (Hc & _ & _ & _ & Hdrain).
  destruct (Hdrain 1 (callback_of 0 2 1) eq_refl eq_refl) as (u & Hu & Hw & _).
  split; [exact Hc|]. split; [reflexivity|]. by exists u.
Defined.

(** ** The listeners *)


Lemma follows_socket_events w w' :
  follows only_socket_events w w' →
  writable w' = writable w
  ∧ held w' = held w
  ∧ batches w' = batches w
  ∧ perMessageDeflate w' = perMessageDeflate w
  ∧ ∃ added,
      trace w' = trace w ++ added
      ∧ Forall (λ x : Entry, x.1 = InListener) added
      ∧ count is_write added = 0
      ∧ (closeListener w' = closeListener w ∧ count is_onClose added = 0
         ∨ closeListener w = true ∧ closeListener w' = false
           ∧ count is_onClose added = 1).
Proof.
  induction 1 as [|a w' w'' _ IH Hpol Hstep].
  - repeat split. exists []. rewrite app_nil_r. repeat split; auto.
  - destruct IH as (Hw & Hh & Hb & Hd & added & Ht & Hall & Hwr & Hc).
    assert (Hone : ∀ e, count is_write [(InListener, e)] = 0 →
              count is_onClose [(InListener, e)] = 0 →
              trace w'' = trace w' ++ [(InListener, e)] →
              closeListener w'' = closeListener w' →
              ∃ added0,
                trace w'' = trace w ++ added0
                ∧ Forall (λ x : Entry, x.1 = InListener) added0
                ∧ count is_write added0 = 0
                ∧ (closeListener w'' = closeListener w ∧ count is_onClose added0 = 0
                   ∨ closeListener w = true ∧ closeListener w'' = false
                     ∧ count is_onClose added0 = 1)).
    { intros e He1 He2 Ht' Hl'. exists (added ++ [(InListener, e)]).
      rewrite Ht', Ht, <- app_assoc, !count_app, Hwr, Hl'.
      split; [done|]. split; [by apply Forall_app; split; [|repeat constructor]|].
      rewrite He1, He2.
      split; [done|].
      destruct Hc as [[? ?]|(? & ? & ?)]; [left|right]; repeat split; lia || done. }
    destruct a as [| | | |payload isBinary| |err]; simpl in Hpol; try done;
      simpl in Hstep; injection Hstep as <-.
    + do 4 (split; [done|]).
      by apply (Hone (OnData (if isBinary then payload else js_toString payload))).
    + unfold on_close. destruct (closeListener w') eqn:Hl.
      * do 4 (split; [done|]).
        exists (added ++ [(InListener, OnClose)]). simpl.
        rewrite Ht, <- app_assoc, !count_app, Hwr.
        split; [done|]. split; [by apply Forall_app; split; [|repeat constructor]|].
        split; [done|]. right.
        destruct Hc as [[Heq ->]|(? & ? & ?)]; [|congruence].
        by repeat split.
      * do 4 (split; [done|]). exists added. do 3 (split; [done|]). rewrite Hl.
        destruct Hc as [[<- ?]|(-> & _ & ?)]; [by left|by right].
    + do 4 (split; [done|]). by apply (Hone (OnError (JsError err) JsUndefined)).
Qed.

(** X12. Whatever the socket emits, any number of ["message"], ["close"] and
    ["error"] events in any order, the listeners leave [writable], the
    callbacks held by the adapter, the batches and the compression setting as
    they are, write nothing to the socket, and call the close handler at most
    once. *)
Theorem socket_events_leave_sending_alone :
  ∀ w w' : World,
    follows only_socket_events w w' →
    writable w' = writable w
    ∧ held w' = held w
    ∧ batches w' = batches w
    ∧ perMessageDeflate w' = perMessageDeflate w
    ∧ count is_write (effects_since w w') = 0
    ∧ count is_onClose (effects_since w w') ≤ 1
    ∧ Forall (λ x : Entry, x.1 = InListener) (effects_since w w').
Proof.
  intros w w' Hf.
  destruct (follows_socket_events w w' Hf)
    as (Hw & Hh & Hb & Hd & added & Ht & Hall & Hwr & Hc).
  rewrite (effects_since_app _ _ _ Ht).
  do 5 (split; [done|]). split; [|done].
  destruct Hc as [[_ ->]|(_ & _ & ->)]; lia.
Qed.

Lemma socket_events_leave_sending_alone_witness :
  let w' := on_close (on_error write_failure (on_close demo_sent)) in
  follows only_socket_events demo_sent w'
  ∧ writable w' = writable demo_sent
  ∧ held w' = held demo_sent
  ∧ count is_onClose (effects_since demo_sent w') ≤ 1.
Proof.
  intros w'.
  assert (Hf : follows only_socket_events demo_sent w').
  { eapply (follows_step _ _ SocketClose
              (on_error write_failure (on_close demo_sent)));
      [|exact I|reflexivity].
    eapply (follows_step _ _ (SocketError write_failure) (on_close demo_sent));
      [|exact I|reflexivity].
    eapply (follows_step _ _ SocketClose demo_sent); [|exact I|reflexivity].
    apply follows_here. }
  destruct (socket_events_leave_sending_alone demo_sent w' Hf)
    as (Hw & Hh & _ & _ & _ & Hc & _).
  split; [exact Hf|]. split; [exact Hw|]. split; [exact Hh|exact Hc].
Defined.

(** ** The further properties on concrete transports *)

Lemma compress_flag_kept_without_compression_witness :
  let opts := {| opts_compress := Some true |} in
  perMessageDeflate demo_world = None
  ∧ [plain_packet; compress_packet] !! 1 = Some compress_packet
  ∧ List.filter is_write
      (effects_since demo_world (send [plain_packet; compress_packet] demo_world)) !! 1
    = Some (InSend 0, SocketSend (JsString "4hello") opts (callback_of 0 2 1))
  ∧ opts_compress opts = requested_compress compress_packet.
Proof.
  intros opts.
  split; [reflexivity|]. split; [reflexivity|]. split; [reflexivity|].
  exact (compress_flag_kept_without_compression demo_world
           [plain_packet; compress_packet] 1 compress_packet (InSend 0)
           (JsString "4hello") opts (callback_of 0 2 1) eq_refl eq_refl eq_refl).
Defined.

Lemma compress_flag_kept_from_threshold_on_witness :
  let c := {| threshold := 6 |} in
  let w := with_perMessageDeflate (Some c) demo_world in
  let opts := {| opts_compress := Some true |} in
  perMessageDeflate w = Some c
  ∧ payload_len (JsString "4hello") = Some (threshold c)
  ∧ List.filter is_write (effects_since w (send [compress_packet] w)) !! 0
    = Some (InSend 0, SocketSend (JsString "4hello") opts (callback_of 0 1 0))
  ∧ opts_compress opts = requested_compress compress_packet.
Proof.
  intros c w opts.
  assert (Hlen : ∀ len, payload_len (JsString "4hello") = Some len →
                        (threshold c ≤ len)%Z).
  { intros len [= <-]. vm_compute. discriminate. }
  split; [reflexivity|]. split; [reflexivity|]. split; [reflexivity|].
  exact (compress_flag_kept_from_threshold_on w c [compress_packet] 0
           compress_packet (InSend 0) (JsString "4hello") opts (callback_of 0 1 0)
           eq_refl Hlen eq_refl eq_refl).
Defined.

Lemma frame_injected_only_when_eligible_witness :
  let frame := JsArray [JsBuffer []] in
  [frame_packet] !! 0 = Some frame_packet
  ∧ List.filter is_write
      (effects_since demo_world (send [frame_packet] demo_world)) !! 0
    = Some (InSend 0, SenderSendFrame frame (callback_of 0 1 0))
  ∧ perMessageDeflate demo_world = None
  ∧ is_Some (perMessageDeflate compressing_world)
  ∧ count is_sendFrame
      (effects_since compressing_world (send [frame_packet] compressing_world)) = 0.
Proof.
  intros frame.
  destruct (frame_injected_only_when_eligible demo_world [frame_packet])
    as [Honly _].
  destruct (Honly 0 frame_packet (InSend 0) frame (callback_of 0 1 0)
              eq_refl eq_refl) as (Hoff & _).
  destruct (frame_injected_only_when_eligible compressing_world [frame_packet])
    as [_ Hnone].
  assert (Hon : is_Some (perMessageDeflate compressing_world)) by (by eexists).
  split; [reflexivity|]. split; [reflexivity|]. split; [exact Hoff|].
  split; [exact Hon|]. apply Hnone. by left.
Defined.

Lemma send_with_deferring_adapter_witness :
  let packets := [plain_packet; string_packet; frame_packet] in
  (∀ tr, respond (socket demo_world) tr = Deferred)
  ∧ writable (send packets demo_world) = false
  ∧ held (send packets demo_world) =
      [callback_of 0 3 0; callback_of 0 3 1; callback_of 0 3 2].
Proof.
  intros packets.
  assert (Hdef : ∀ tr, respond (socket demo_world) tr = Deferred)
    by (intros tr; reflexivity).
  destruct (send_with_deferring_adapter demo_world packets Hdef) as (Hw & Hh & _).
  split; [exact Hdef|]. split; [exact Hw|exact Hh].
Defined.

Lemma writable_on_return_from_send_witness :
  let packets := [plain_packet; string_packet; compress_packet; frame_packet] in
  writable (send packets failing_world) = true
  ∧ (InOnSent (callback_of 0 4 3) None, WritableSet true)
      ∈ effects_since failing_world (send packets failing_world).
Proof.
  intros packets.
  destruct (writable_on_return_from_send failing_world packets) as [Hthen _].
  split; [reflexivity|]. exact (Hthen eq_refl).
Defined.

(** ** What construction fixes *)

Lemma step_setup a w w' :
  step a w = Some w' →
  socket w' = socket w
  ∧ parser w' = parser w
  ∧ supportsBinary w' = supportsBinary w
  ∧ (perMessageDeflate w' = perMessageDeflate w
     ∨ ∃ c, a = SetPerMessageDeflate c).
Proof.
  intros Hstep. destruct a as [packets|fn|c|k err|payload isBinary| |err];
    simpl in Hstep.
  - injection Hstep as <-.
    destruct (send_setup w packets) as (-> & -> & -> & -> & _). auto.
  - injection Hstep as <-. destruct fn; simpl; auto.
  - injection Hstep as <-. simpl. repeat split. right. by exists c.
  - destruct (held w !! k) as [cb|]; [|done]. injection Hstep as <-.
    destruct (onSent_setup cb err (with_held (delete k (held w)) w))
      as (-> & -> & -> & -> & _). simpl. auto.
  - injection Hstep as <-. simpl. auto.
  - injection Hstep as <-. unfold on_close. destruct (closeListener w); simpl; auto.
  - injection Hstep as <-. simpl. auto.
Qed.

(** X15. The constructor fails exactly when the request has no socket;
    otherwise the new transport is writable, without compression, with
    nothing held and nothing done, and as long as nobody assigns
    [perMessageDeflate] compression stays off and the socket, the codec and
    the binary flag stay those of the construction, whatever is sent,
    completed, closed or received. *)
Theorem construction_fixes_the_setup :
  ∀ (req : PreparedIncomingMessage) (base : TransportBase),
    (websocket req = None ∧ new_WebSocket req base = None)
    ∨ ∃ w, new_WebSocket req base = Some w
           ∧ writable w = true
           ∧ held w = []
           ∧ trace w = []
           ∧ ∀ w', follows never_configures w w' →
               perMessageDeflate w' = None
               ∧ websocket req = Some (socket w')
               ∧ parser w' = base_parser base
               ∧ supportsBinary w' = base_supportsBinary base.
Proof.
  intros req base. unfold new_WebSocket.
  destruct (websocket req) as [ws|] eqn:Hws; [right|by left].
  eexists. split; [reflexivity|]. simpl. do 3 (split; [done|]).
  induction 1 as [|a w' w'' _ IH Hpol Hstep]; [done|].
  destruct IH as (Hd & Hs & Hp & Hb).
  destruct (step_setup a w' w'' Hstep) as (-> & -> & -> & [->|[c ->]]);
    [done|]. done.
Qed.

Lemma construction_fixes_the_setup_witness :
  new_WebSocket demo_request demo_base = Some demo_world
  ∧ follows never_configures demo_world demo_drained
  ∧ perMessageDeflate demo_drained = None
  ∧ websocket demo_request = Some (socket demo_drained).
Proof.
  assert (Hf : follows never_configures demo_world demo_drained).
  { eapply (follows_step _ _ (AdapterCompletes 1 None) demo_sent);
      [|exact I|reflexivity].
    eapply (follows_step _ _ (CallSend _) demo_world); [|exact I|reflexivity].
    apply follows_here. }
  destruct (construction_fixes_the_setup demo_request demo_base)
    as [[Hnone _]|(w & Hnew & _ & _ & _ & Hall)]; [discriminate Hnone|].
  injection Hnew as <-.
  destruct (Hall demo_drained Hf) as (Hd & Hs & _).
  split; [reflexivity|]. split; [exact Hf|]. split; [exact Hd|exact Hs].
Defined.

(** ** Callbacks that run while [send] is writing *)

Lemma reaction_split cb c l1 (x : Entry) l2 cb' err :
  reaction cb c = l1 ++ x :: l2 →
  x.1 = InOnSent cb' err →
  cb' = cb ∧ count is_write l1 = 0.
Proof.
  intros Heq Hx.
  assert (Hin : x ∈ reaction cb c).
  { rewrite Heq. apply elem_of_app. right. apply list_elem_of_here. }
  apply reaction_by_callback in Hin as [err' Hin].
  rewrite Hin in Hx. injection Hx as <- _. split; [done|].
  pose proof (reaction_filter is_write cb c) as Hf.
  rewrite Heq, List.filter_app in Hf.
  unfold count. destruct (List.filter is_write l1); [done|].
  by specialize (Hf (λ _ _ _, eq_refl) (λ _ _, eq_refl) (λ _ _, eq_refl)).
Qed.

Lemma send_loop_callback_position batch n rest :
  ∀ i w added l1 (x : Entry) l2 cb err,
    trace (send_loop batch n i rest w) = trace w ++ added →
    added = l1 ++ x :: l2 →
    x.1 = InOnSent cb err →
    cb_batch cb = batch
    ∧ i ≤ cb_index cb < i + length rest
    ∧ count is_write l1 = cb_index cb - i + 1.
Proof.
  induction rest as [|p rest IH]; intros i w added l1 x l2 cb err Ht Hsplit Hx;
    simpl in Ht.
  - apply (f_equal length) in Ht. rewrite length_app in Ht.
    assert (added = []) as -> by (destruct added; simpl in *; [done|lia]).
    by destruct l1.
  - destruct (send_packet_full batch n i p w)
      as (own & wr & Hd & c & _ & Hp & _ & _ & _).
    destruct (send_loop_writes batch n rest (S i) (send_packet batch n i p w))
      as (added' & Ht' & _).
    assert (Hadd : added = (own ++ [(InSend batch, wr)])
                           ++ reaction (callback_of batch n i) c ++ added').
    { rewrite Ht', Hp in Ht. rewrite <- !app_assoc in Ht.
      apply app_inv_head in Ht. rewrite <- Ht. by rewrite <- !app_assoc. }
    destruct (dispatch_counts _ _ _ _ _ _ Hd) as (Hone & _ & _).
    rewrite Hsplit in Hadd. symmetry in Hadd.
    apply app_eq_cons_split in Hadd as [(l2' & Hown & _)|(l1' & Hadd & ->)].
    { assert (Hin : x ∈ own ++ [(InSend batch, wr)]).
      { rewrite Hown. apply elem_of_app. right. apply list_elem_of_here. }
      apply (dispatch_by_send _ _ _ _ _ _ _ Hd) in Hin. congruence. }
    apply app_eq_cons_split in Hadd as [(l2' & Hr & _)|(l1'' & Hadd & ->)].
    + destruct (reaction_split _ _ _ _ _ _ _ Hr Hx) as [-> Hz].
      rewrite count_app. simpl in *. split; [done|]. lia.
    + destruct (IH (S i) _ added' l1'' x l2 cb err Ht' Hadd Hx) as (Hb & Hi & Hc).
      destruct (reaction_counts (callback_of batch n i) c) as (Hrc & _).
      rewrite !count_app. rewrite count_app in Hone.
      split; [done|]. cbn [length]. lia.
Qed.

(** X16. A callback that the adapter runs while [send] is still writing
    belongs to a packet of this batch and runs between the write of its own
    packet and the next one: before any entry of the callback of packet [i],
    exactly [i + 1] writes of the batch have been made. *)
Theorem callback_runs_after_its_write :
  ∀ (w : World) (packets : list Packet) (l1 : list Entry) (x : Entry)
    (l2 : list Entry) (cb : Callback) (err : option Error),
    effects_since w (send packets w) = l1 ++ x :: l2 →
    x.1 = InOnSent cb err →
    cb_batch cb = length (batches w)
    ∧ cb_index cb < length packets
    ∧ count is_write l1 = cb_index cb + 1.
Proof.
  intros w packets l1 x l2 cb err Heff Hx. unfold send in Heff.
  set (batch := length (batches w)) in *.
  set (w0 := set_writable _ _ _) in Heff.
  destruct (send_loop_writes batch (length packets) packets 0 w0)
    as (added & Ht & _).
  rewrite (effects_since_app w _ ((InSend batch, WritableSet false) :: added))
    in Heff.
  2:{ rewrite Ht. subst w0. simpl. by rewrite <- app_assoc. }
  destruct l1 as [|y l1]; [injection Heff as <- _; done|].
  injection Heff as <- Heff.
  destruct (send_loop_callback_position batch (length packets) packets 0 w0
              added l1 x l2 cb err Ht Heff Hx) as (Hb & Hi & Hc).
  split; [done|]. split; [lia|].
  change (count is_write ((InSend batch, WritableSet false) :: l1))
    with (count is_write l1). lia.
Qed.

Lemma callback_runs_after_its_write_witness :
  let packets := [plain_packet; string_packet; compress_packet; frame_packet] in
  let effects := effects_since failing_world (send packets failing_world) in
  let report :=
    (InOnSent (callback_of 0 4 1) (Some write_failure),
     OnError (JsString "write error") (JsString "Error: closed")) in
  effects = take 5 effects ++ report :: drop 6 effects
  ∧ count is_write (take 5 effects) = 2.
Proof.
  intros packets effects report.
  assert (Hsplit : effects = take 5 effects ++ report :: drop 6 effects)
    by (vm_compute; reflexivity).
  destruct (callback_runs_after_its_write failing_world packets _ _ _
              (callback_of 0 4 1) (Some write_failure) Hsplit eq_refl)
    as (_ & _ & Hc).
  split; [exact Hsplit|exact Hc].
Defined.

(** ** When the encoding of the frame can be skipped *)


